(** * Ray_tracer: a shallow embedding of the path tracer's core

    The C++ sources (vec3.h, ray.h, hitable.h, material.h, camera.h and the
    [color] function of main.cpp) are transcribed function by function.

    Numeric model.  A C++ [float] is a real number ([R]): arithmetic is
    exact, there is no rounding, no infinity and no NaN.  Division and
    square root are the total functions of the Standard Library
    ([x / 0 = 0], [sqrt x = 0] for negative [x]); every statement whose
    truth would depend on those conventions carries the hypothesis that
    rules the degenerate input out.  An [int] is a [Z].

    Effects.  Output parameters ([hit_record& rec], [vec3& attenuation],
    [ray& scattered]) become explicit state passing: the function takes the
    caller's value and returns the value the caller sees afterwards.  The two
    random sources (the function-local statics of [random_float] and the C
    library's [rand]) live in an explicit [rng] state. *)

From Stdlib Require Import Reals Lra Psatz ZArith List Permutation Bool.
Import ListNotations.
Open Scope R_scope.

(** ** Comparisons of floats, as booleans *)

Definition Rltb (x y : R) : bool := if Rlt_dec x y then true else false.
Definition Rgtb (x y : R) : bool := Rltb y x.
Definition Rgeb (x y : R) : bool := if Rge_dec x y then true else false.

(** ** vec3.h *)

Record vec3 : Type := mkvec3 { e0 : R; e1 : R; e2 : R }.

Module Vec3.

(** [vec3()] *)
Definition zero : vec3 := mkvec3 0 0 0.

Definition x (v : vec3) : R := e0 v.
Definition y (v : vec3) : R := e1 v.
Definition z (v : vec3) : R := e2 v.

(** unary [operator-] *)
Definition neg (v : vec3) : vec3 := mkvec3 (- e0 v) (- e1 v) (- e2 v).

Definition squared_length (v : vec3) : R :=
  e0 v * e0 v + e1 v * e1 v + e2 v * e2 v.

Definition length (v : vec3) : R := sqrt (squared_length v).

(** [operator+(vec3, vec3)] *)
Definition add (v1 v2 : vec3) : vec3 :=
  mkvec3 (e0 v1 + e0 v2) (e1 v1 + e1 v2) (e2 v1 + e2 v2).

(** [operator-(vec3, vec3)] *)
Definition sub (v1 v2 : vec3) : vec3 :=
  mkvec3 (e0 v1 - e0 v2) (e1 v1 - e1 v2) (e2 v1 - e2 v2).

(** [operator*(vec3, vec3)], component-wise *)
Definition mul (v1 v2 : vec3) : vec3 :=
  mkvec3 (e0 v1 * e0 v2) (e1 v1 * e1 v2) (e2 v1 * e2 v2).

(** [operator*(vec3, float)] and [operator*(float, vec3)]: both compute
    [v1.e[i] * t]. *)
Definition scale (v1 : vec3) (t : R) : vec3 :=
  mkvec3 (e0 v1 * t) (e1 v1 * t) (e2 v1 * t).

Definition scale_l (t : R) (v1 : vec3) : vec3 :=
  mkvec3 (e0 v1 * t) (e1 v1 * t) (e2 v1 * t).

(** [operator/(vec3, float)] *)
Definition div (v1 : vec3) (t : R) : vec3 :=
  mkvec3 (e0 v1 / t) (e1 v1 / t) (e2 v1 / t).

Definition dot (v1 v2 : vec3) : R :=
  e0 v1 * e0 v2 + e1 v1 * e1 v2 + e2 v1 * e2 v2.

Definition cross (v1 v2 : vec3) : vec3 :=
  mkvec3 (e1 v1 * e2 v2 - e2 v1 * e1 v2)
         (- e0 v1 * e2 v2 + e2 v1 * e0 v2)
         (e0 v1 * e1 v2 - e1 v1 * e0 v2).

Definition unit_vector (v : vec3) : vec3 := div v (length v).

(** [vec3::make_unit_vector]: scales in place by [k = 1.0/length()];
    the result is the vector afterwards. *)
Definition make_unit_vector (v : vec3) : vec3 :=
  let k := 1 / length v in
  mkvec3 (e0 v * k) (e1 v * k) (e2 v * k).

(** [operator+=(vec3)] *)
Definition add_assign (v v2 : vec3) : vec3 :=
  mkvec3 (e0 v + e0 v2) (e1 v + e1 v2) (e2 v + e2 v2).

(** [operator*=(float)] *)
Definition scale_assign (v : vec3) (t : R) : vec3 :=
  mkvec3 (e0 v * t) (e1 v * t) (e2 v * t).

(** [operator/=(float)]: multiplies by [k = 1.0/t]. *)
Definition div_assign (v : vec3) (t : R) : vec3 :=
  let k := 1 / t in
  mkvec3 (e0 v * k) (e1 v * k) (e2 v * k).

End Vec3.

Declare Scope vec3_scope.
Delimit Scope vec3_scope with v3.
Bind Scope vec3_scope with vec3.
Infix "+" := Vec3.add : vec3_scope.
Infix "-" := Vec3.sub : vec3_scope.
Infix "*" := Vec3.mul : vec3_scope.
Infix ":*" := Vec3.scale (at level 40, left associativity) : vec3_scope.
Infix "*:" := Vec3.scale_l (at level 40, left associativity) : vec3_scope.
Infix ":/" := Vec3.div (at level 40, left associativity) : vec3_scope.
Notation "- v" := (Vec3.neg v) : vec3_scope.

(** [clamp] *)
Definition clamp (x min max : R) : R :=
  if Rltb x min then min else if Rgtb x max then max else x.

(** ** ray.h *)

Record ray : Type := mkray { orig : vec3; dir : vec3 }.

Module Ray.

(** [ray()] default-constructs both members. *)
Definition default : ray := mkray Vec3.zero Vec3.zero.

Definition origin (r : ray) : vec3 := orig r.
Definition direction (r : ray) : vec3 := dir r.

(** [at(t) = orig + t*dir] *)
Definition at_ (r : ray) (t : R) : vec3 := (orig r + t *: dir r)%v3.

End Ray.

(** ** material.h, data: the three material classes *)

Inductive material : Type :=
| lambertian (albedo : vec3)
| metal (albedo : vec3)
| dielectric (ref_idx : R).

(** ** hitable.h *)

(** [struct hit_record].  [mat_ptr] is a [shared_ptr<material>]: [None] is
    the null pointer a default-constructed record holds. *)
Record hit_record : Type := mkhit {
  t : R;
  p : vec3;
  normal : vec3;
  mat_ptr : option material
}.

(** A [hit_record] declared without initialiser.  [p] and [normal] are
    zeroed by [vec3()], [mat_ptr] is null; [t] is indeterminate in C++ and
    taken as 0 here (lemma [hit_any_rec] below: no result depends on it). *)
Definition hit_record_uninit : hit_record := mkhit 0 Vec3.zero Vec3.zero None.

(** [class sphere] *)
Record sphere : Type := mksphere {
  center : vec3;
  radius : R;
  mat : option material
}.

(** [sphere::hit].  Returns the boolean result and [rec] as the caller sees
    it after the call. *)
Definition sphere_hit (s : sphere) (r : ray) (t_min t_max : R)
    (rec : hit_record) : bool * hit_record :=
  let oc := (Ray.origin r - center s)%v3 in
  let a := Vec3.dot (Ray.direction r) (Ray.direction r) in
  let b := Vec3.dot oc (Ray.direction r) in
  let c := Vec3.dot oc oc - radius s * radius s in
  let discriminant := b * b - a * c in
  if Rgtb discriminant 0 then
    let temp := (- b - sqrt discriminant) / a in
    if Rltb temp t_max && Rgtb temp t_min then
      let rec_p := Ray.at_ r temp in
      (true, mkhit temp rec_p ((rec_p - center s) :/ radius s)%v3 (mat s))
    else
      let temp := (- b + sqrt discriminant) / a in
      if Rltb temp t_max && Rgtb temp t_min then
        let rec_p := Ray.at_ r temp in
        (true, mkhit temp rec_p ((rec_p - center s) :/ radius s)%v3 (mat s))
      else (false, rec)
  else (false, rec).

(** The loop of [hitable_list::hit], over any kind of object with a [hit]
    method.  The loop state is the four variables the body touches:
    [temp_rec], [hit_anything], [closest_so_far] and the caller's [rec]. *)
Section HitableList.

Variable object : Type.
Variable object_hit : object -> ray -> R -> R -> hit_record -> bool * hit_record.

Fixpoint hit_loop (objects : list object) (r : ray) (t_min : R)
    (temp_rec : hit_record) (hit_anything : bool) (closest_so_far : R)
    (rec : hit_record) : bool * hit_record :=
  match objects with
  | [] => (hit_anything, rec)
  | obj :: rest =>
      let '(h, temp_rec') := object_hit obj r t_min closest_so_far temp_rec in
      if h then hit_loop rest r t_min temp_rec' true (t temp_rec') temp_rec'
      else hit_loop rest r t_min temp_rec' hit_anything closest_so_far rec
  end.

Definition hitable_list_hit (objects : list object) (r : ray)
    (t_min t_max : R) (rec : hit_record) : bool * hit_record :=
  hit_loop objects r t_min hit_record_uninit false t_max rec.

End HitableList.

(** [class hitable] and its two subclasses. *)
#[local] Set Warnings "-register-all".
Inductive hitable : Type :=
| Sphere (s : sphere)
| HitableList (objects : list hitable).

(** Virtual dispatch of [hitable::hit]. *)
Fixpoint hit (o : hitable) (r : ray) (t_min t_max : R) (rec : hit_record)
    {struct o} : bool * hit_record :=
  match o with
  | Sphere s => sphere_hit s r t_min t_max rec
  | HitableList objects => hitable_list_hit hitable hit objects r t_min t_max rec
  end.

(** ** vec3.h, random utilities *)

(** The state of the program's random sources.
    - [distribution]: the function-local [static uniform_real_distribution]
      of [random_float]; [None] until the first call constructs it.
    - [generator], [generator_pos]: the function-local [static mt19937],
      seen through the canonical values in [0,1) the distribution draws from
      it, and the number of draws made so far.
    - [rand_seq], [rand_pos]: the successive results of the C library's
      [rand()], each in [0, RAND_MAX], and the number of calls so far. *)
Record rng : Type := mkrng {
  distribution : option (R * R);
  generator : nat -> R;
  generator_pos : nat;
  rand_seq : nat -> Z;
  rand_pos : nat
}.

(** [RAND_MAX] of <cstdlib> (the value of glibc). *)
Definition RAND_MAX : Z := 2147483647.

(** [FLT_MAX] of <cfloat>: (2 - 2^-23) * 2^127. *)
Definition FLT_MAX : R := IZR ((2 ^ 24 - 1) * 2 ^ 104).

(** The generator's streams are well formed: canonical draws lie in [0,1),
    results of [rand()] lie in [0, RAND_MAX]. *)
Definition rng_wf (st : rng) : Prop :=
  (forall n, 0 <= generator st n < 1) /\
  (forall n, (0 <= rand_seq st n <= RAND_MAX)%Z).

(** [random_float(min, max)].  A [static] local is initialised by the first
    call that reaches it, so [distribution] keeps the bounds of the first
    call; [distribution(generator)] maps the canonical draw [u] to
    [u * (b - a) + a]. *)
Definition random_float (min max : R) (st : rng) : R * rng :=
  let d := match distribution st with
           | Some d => d
           | None => (min, max)
           end in
  let u := generator st (generator_pos st) in
  (u * (snd d - fst d) + fst d,
   mkrng (Some d) (generator st) (S (generator_pos st))
         (rand_seq st) (rand_pos st)).

(** [rand()] *)
Definition rand (st : rng) : Z * rng :=
  (rand_seq st (rand_pos st),
   mkrng (distribution st) (generator st) (generator_pos st)
         (rand_seq st) (S (rand_pos st))).

(** [random_vec3(min, max)].  C++ leaves the order in which the three
    arguments of the constructor are evaluated unspecified; the draws are
    taken last argument first, as GCC evaluates them. *)
Definition random_vec3 (min max : R) (st : rng) : vec3 * rng :=
  let '(c, st1) := random_float min max st in
  let '(b, st2) := random_float min max st1 in
  let '(a, st3) := random_float min max st2 in
  (mkvec3 a b c, st3).

(** Results of code that may loop or dereference a null pointer. *)
Inductive outcome (A : Type) : Type :=
| Ok (a : A)
| OutOfFuel
| Undefined.
Arguments Ok {A} a.
Arguments OutOfFuel {A}.
Arguments Undefined {A}.

Definition bind {A B : Type} (m : outcome A) (k : A -> outcome B) : outcome B :=
  match m with
  | Ok a => k a
  | OutOfFuel => OutOfFuel
  | Undefined => Undefined
  end.

Notation "x <- m ;; k" := (bind m (fun x => k))
  (at level 61, m at next level, right associativity).
Notation "' pat <- m ;; k" := (bind m (fun x => match x with pat => k end))
  (at level 61, pat pattern, m at next level, right associativity).

(** [random_in_unit_sphere]: the [while(true)] loop, one iteration per unit
    of fuel. *)
Fixpoint random_in_unit_sphere (fuel : nat) (st : rng) : outcome (vec3 * rng) :=
  match fuel with
  | O => OutOfFuel
  | S fuel' =>
      let '(p, st') := random_vec3 (-1) 1 st in
      if Rgeb (Vec3.squared_length p) 1 then random_in_unit_sphere fuel' st'
      else Ok (p, st')
  end.

(** ** material.h, behaviour *)

(** Every [scatter] assigns both output parameters before it returns, so the
    model returns them: (result, attenuation, scattered, random state). *)
Definition scatter_result : Type := (bool * vec3 * ray * rng)%type.

Module Lambertian.

Definition scatter (albedo : vec3) (fuel : nat) (r_in : ray)
    (rec : hit_record) (st : rng) : outcome scatter_result :=
  '(rnd, st') <- random_in_unit_sphere fuel st ;;
  let target := (p rec + normal rec + rnd)%v3 in
  let scattered := mkray (p rec) (target - p rec)%v3 in
  let attenuation := albedo in
  Ok (true, attenuation, scattered, st').

End Lambertian.

Module Metal.

(** [metal::reflect]: [v - 2*dot(v,n)*n] *)
Definition reflect (v n : vec3) : vec3 :=
  (v - (2 * Vec3.dot v n) *: n)%v3.

Definition scatter (albedo : vec3) (r_in : ray) (rec : hit_record)
    (st : rng) : outcome scatter_result :=
  let reflected := reflect (Vec3.unit_vector (Ray.direction r_in)) (normal rec) in
  let scattered := mkray (p rec) reflected in
  let attenuation := albedo in
  Ok (Rgtb (Vec3.dot (Ray.direction scattered) (normal rec)) 0,
      attenuation, scattered, st).

End Metal.

Module Dielectric.

(** [dielectric::reflect], a copy of [metal::reflect] *)
Definition reflect (v n : vec3) : vec3 :=
  (v - (2 * Vec3.dot v n) *: n)%v3.

(** The discriminant [refract] tests. *)
Definition refract_discriminant (v n : vec3) (ni_over_nt : R) : R :=
  let uv := Vec3.unit_vector v in
  let dt := Vec3.dot uv n in
  1 - ni_over_nt * ni_over_nt * (1 - dt * dt).

(** [dielectric::refract]; [refracted] is written only on success. *)
Definition refract (v n : vec3) (ni_over_nt : R) (refracted : vec3)
    : bool * vec3 :=
  let uv := Vec3.unit_vector v in
  let dt := Vec3.dot uv n in
  let discriminant := 1 - ni_over_nt * ni_over_nt * (1 - dt * dt) in
  if Rgtb discriminant 0 then
    (true, (ni_over_nt *: (uv - n :* dt) - n :* sqrt discriminant)%v3)
  else (false, refracted).

(** [dielectric::schlick] *)
Definition schlick (ref_idx cosine : R) : R :=
  let r0 := (1 - ref_idx) / (1 + ref_idx) in
  let r0 := r0 * r0 in
  r0 + (1 - r0) * (1 - cosine) ^ 5.

(** The branch on the ray entering or leaving the medium:
    (outward_normal, ni_over_nt, cosine). *)
Definition orient (ref_idx : R) (r_in : ray) (rec : hit_record)
    : vec3 * R * R :=
  if Rgtb (Vec3.dot (Ray.direction r_in) (normal rec)) 0 then
    ((- normal rec)%v3, ref_idx,
     ref_idx * Vec3.dot (Ray.direction r_in) (normal rec)
       / Vec3.length (Ray.direction r_in))
  else
    (normal rec, 1 / ref_idx,
     - Vec3.dot (Ray.direction r_in) (normal rec)
       / Vec3.length (Ray.direction r_in)).

Definition scatter (ref_idx : R) (r_in : ray) (rec : hit_record)
    (st : rng) : outcome scatter_result :=
  let reflected := reflect (Vec3.unit_vector (Ray.direction r_in)) (normal rec) in
  let attenuation := mkvec3 1 1 1 in
  let refracted := Vec3.zero in
  let '(outward_normal, ni_over_nt, cosine) := orient ref_idx r_in rec in
  let '(ok, refracted) :=
    refract (Ray.direction r_in) outward_normal ni_over_nt refracted in
  let reflect_prob := if ok then schlick ref_idx cosine else 1 in
  let '(x, st') := rand st in
  let scattered :=
    if Rltb (IZR x / IZR RAND_MAX) reflect_prob
    then mkray (p rec) reflected
    else mkray (p rec) refracted in
  Ok (true, attenuation, scattered, st').

End Dielectric.

(** Virtual dispatch of [material::scatter]. *)
Definition scatter (m : material) (fuel : nat) (r_in : ray) (rec : hit_record)
    (st : rng) : outcome scatter_result :=
  match m with
  | lambertian albedo => Lambertian.scatter albedo fuel r_in rec st
  | metal albedo => Metal.scatter albedo r_in rec st
  | dielectric ref_idx => Dielectric.scatter ref_idx r_in rec st
  end.

(** ** camera.h *)

Record camera : Type := mkcamera {
  origin : vec3;
  horizontal : vec3;
  vertical : vec3;
  lower_left_corner : vec3
}.

Module Camera.

Definition half_height (vfov : R) : R :=
  let theta := vfov * PI / 180 in
  tan (theta / 2).

Definition half_width (vfov aspect : R) : R := aspect * half_height vfov.

(** The basis vectors [w], [u], [v] of the constructor. *)
Definition basis_w (lookfrom lookat : vec3) : vec3 :=
  Vec3.unit_vector (lookfrom - lookat)%v3.
Definition basis_u (lookfrom lookat vup : vec3) : vec3 :=
  Vec3.unit_vector (Vec3.cross vup (basis_w lookfrom lookat)).
Definition basis_v (lookfrom lookat vup : vec3) : vec3 :=
  Vec3.cross (basis_w lookfrom lookat) (basis_u lookfrom lookat vup).

(** [camera::camera] *)
Definition new (lookfrom lookat vup : vec3) (vfov aspect : R) : camera :=
  let half_height := half_height vfov in
  let half_width := half_width vfov aspect in
  let origin := lookfrom in
  let w := basis_w lookfrom lookat in
  let u := basis_u lookfrom lookat vup in
  let v := basis_v lookfrom lookat vup in
  mkcamera origin
           ((2 * half_width) *: u)%v3
           ((2 * half_height) *: v)%v3
           (origin - half_width *: u - half_height *: v - w)%v3.

(** [camera::get_ray] *)
Definition get_ray (cam : camera) (s t : R) : ray :=
  mkray (origin cam)
        (lower_left_corner cam + s *: horizontal cam + t *: vertical cam
         - origin cam)%v3.

End Camera.

(** ** main.cpp: [color] *)

(** The background gradient of a ray that hits nothing. *)
Definition background (r : ray) : vec3 :=
  let unit_direction := Vec3.unit_vector (Ray.direction r) in
  let t := 0.5 * (Vec3.y unit_direction + 1.0) in
  ((1.0 - t) *: mkvec3 1 1 1 + t *: mkvec3 0.5 0.7 1.0)%v3.

(** [color(r, world, depth)].  The recursion is on [fuel]; the depth test
    comes first, as in the source, so a call with [depth > 50] needs none.
    Dereferencing a null [mat_ptr] is [Undefined]. *)
Fixpoint color (fuel : nat) (r : ray) (world : hitable) (depth : Z)
    (st : rng) {struct fuel} : outcome (vec3 * rng) :=
  let rec := hit_record_uninit in
  if (depth >? 50)%Z then Ok (mkvec3 0 0 0, st)
  else
    match fuel with
    | O => OutOfFuel
    | S fuel' =>
        let '(h, rec) := hit world r 0.0001 FLT_MAX rec in
        if h then
          match mat_ptr rec with
          | None => Undefined
          | Some m =>
              '(scatters, attenuation, scattered, st') <-
                 scatter m fuel' r rec st ;;
              if (scatters : bool) then
                '(c, st'') <- color fuel' scattered world (depth + 1) st' ;;
                Ok ((attenuation * c)%v3, st'')
              else Ok (mkvec3 0 0 0, st')
          end
        else Ok (background r, st)
    end.

(** ** Vocabulary of the statements *)

(** A [hit] method, with its object fixed. *)
Definition hit_fn : Type := ray -> R -> R -> hit_record -> bool * hit_record.

(** What a [hit] method answers for a ray and a range, as a value: the
    record of the hit, or nothing.  (Started from an uninitialised record, as
    [color] and [hitable_list::hit] do.) *)
Definition query (f : hit_fn) (r : ray) (t_min t_max : R) : option hit_record :=
  let '(h, rec) := f r t_min t_max hit_record_uninit in
  if h then Some rec else None.

(** The contract the loop of [hitable_list::hit] relies on in its objects:
    - a miss leaves [rec] alone and a hit does not depend on it;
    - a reported [t] lies in the open range, and [p] is the ray there;
    - narrowing the upper bound to [c] keeps the answer when its [t] is
      below [c] and turns it into a miss otherwise. *)
Record regular (f : hit_fn) : Prop := {
  reg_frame : forall r t_min t_max rec,
    f r t_min t_max rec =
    match query f r t_min t_max with
    | Some h => (true, h)
    | None => (false, rec)
    end;
  reg_range : forall r t_min t_max h,
    query f r t_min t_max = Some h -> t_min < t h < t_max;
  reg_point : forall r t_min t_max h,
    query f r t_min t_max = Some h -> p h = Ray.at_ r (t h);
  reg_shrink : forall r t_min t_max c, c <= t_max ->
    query f r t_min c =
    match query f r t_min t_max with
    | Some h => if Rltb (t h) c then Some h else None
    | None => None
    end
}.

(** The record [hitable_list::hit] ends with, as a function of the list:
    each object is asked below the best [t] so far, and a later answer
    replaces an earlier one. *)
Section Nearest.

Variable object : Type.
Variable object_hit : object -> hit_fn.

Fixpoint nearest (objects : list object) (r : ray) (t_min c : R)
    : option hit_record :=
  match objects with
  | [] => None
  | obj :: rest =>
      match query (object_hit obj) r t_min c with
      | Some h =>
          match nearest rest r t_min (t h) with
          | Some h' => Some h'
          | None => Some h
          end
      | None => nearest rest r t_min c
      end
  end.

End Nearest.

(** The hits of the objects of a list, each asked over the full range. *)
Definition hits_of (objects : list hitable) (r : ray) (t_min t_max : R)
    (h : hit_record) : Prop :=
  exists o, In o objects /\ query (hit o) r t_min t_max = Some h.

(** The record [h] is the hit of an object of the list over the full range,
    and every object inserted before that one misses or is hit at a strictly
    larger [t]: among the objects hit at the least [t], [h] belongs to the
    one inserted first. *)
Definition first_least (objects : list hitable) (r : ray) (t_min t_max : R)
    (h : hit_record) : Prop :=
  exists before o after,
    objects = before ++ o :: after /\
    (exists rec0, hit o r t_min t_max rec0 = (true, h)) /\
    (forall o' rec' h', In o' before ->
       hit o' r t_min t_max rec' = (true, h') -> t h < t h').

(** The test [temp < t_max && temp > t_min]. *)
Definition in_range (x lo hi : R) : bool := Rltb x hi && Rgtb x lo.

(** Names for the quantities [sphere::hit] computes: the coefficients, the
    discriminant, the two roots in the order they are tried, and the record
    written for an accepted root. *)
Section SphereQuantities.

Variables (s : sphere) (r : ray).

Definition sphere_oc : vec3 := (Ray.origin r - center s)%v3.
Definition sphere_a : R := Vec3.dot (Ray.direction r) (Ray.direction r).
Definition sphere_b : R := Vec3.dot sphere_oc (Ray.direction r).
Definition sphere_c : R := Vec3.dot sphere_oc sphere_oc - radius s * radius s.
Definition sphere_discriminant : R := sphere_b * sphere_b - sphere_a * sphere_c.
Definition sphere_root1 : R := (- sphere_b - sqrt sphere_discriminant) / sphere_a.
Definition sphere_root2 : R := (- sphere_b + sqrt sphere_discriminant) / sphere_a.

Definition sphere_record (temp : R) : hit_record :=
  mkhit temp (Ray.at_ r temp)
        ((Ray.at_ r temp - center s) :/ radius s)%v3 (mat s).

End SphereQuantities.

(** ** Concrete inputs used by the examples *)

(** A ray from the origin down the negative z axis. *)
Definition ex_ray : ray := mkray (mkvec3 0 0 0) (mkvec3 0 0 (-1)).

(** Three spheres centred on that axis.  [ex_near] is met at t = 1 and 3,
    [ex_far] at t = 4 and 6, [ex_wide] at t = 1 and 5. *)
Definition ex_near : sphere :=
  mksphere (mkvec3 0 0 (-2)) 1 (Some (lambertian (mkvec3 0.5 0.5 0.5))).
Definition ex_far : sphere :=
  mksphere (mkvec3 0 0 (-5)) 1 (Some (lambertian (mkvec3 0.5 0.5 0.5))).
Definition ex_wide : sphere :=
  mksphere (mkvec3 0 0 (-3)) 2 (Some (metal (mkvec3 0.5 0.5 0.5))).

(** Random sources at program start.  The distribution of [random_float]
    is not constructed yet.  The canonical draws are those of a
    default-constructed [mt19937], whose first outputs are 3499211612,
    581869302 and 3890346734, each over 2^32 (about 0.8147, 0.1355 and
    0.9058); the examples use no later draw.  Every [rand()] returns
    [RAND_MAX]. *)
Definition mt19937_draw (n : nat) : R :=
  match n with
  | 0%nat => 3499211612 / 4294967296
  | 1%nat => 581869302 / 4294967296
  | 2%nat => 3890346734 / 4294967296
  | _ => 0
  end.

Definition ex_rng : rng :=
  mkrng None mt19937_draw 0 (fun _ => RAND_MAX) 0.

(** The camera main.cpp keeps as its simple alternative, at aspect 1:
    at the origin, looking down the negative z axis, 90 degrees of view. *)
Definition ex_lookfrom : vec3 := mkvec3 0 0 0.
Definition ex_lookat : vec3 := mkvec3 0 0 (-1).
Definition ex_vup : vec3 := mkvec3 0 1 0.
Definition ex_camera : camera := Camera.new ex_lookfrom ex_lookat ex_vup 90 1.

(** The inputs of [camera::camera] the spec calls non-degenerate: the two
    vectors the constructor normalises are not zero. *)
Definition camera_inputs_ok (lookfrom lookat vup : vec3) : Prop :=
  (lookfrom - lookat)%v3 <> Vec3.zero /\
  Vec3.cross vup (Camera.basis_w lookfrom lookat) <> Vec3.zero.

(** A ray travelling inside glass and the record of its hit on the surface
    of the sphere of centre (0.4, -0.8, 0) and radius 1: the ray leaves at
    an angle beyond the critical one. *)
Definition ex_glass_ray : ray := mkray (mkvec3 0 0 0) (mkvec3 1 0 0).
Definition ex_glass : sphere :=
  mksphere (mkvec3 0.4 (-0.8) 0) 1 (Some (dielectric 1.5)).
Definition ex_glass_rec : hit_record :=
  mkhit 1 (mkvec3 1 0 0) (mkvec3 0.6 0.8 0) (Some (dielectric 1.5)).

(** ** hitable.h: building a [hitable_list] *)

Module HitableListOps.

(** [hitable_list()] *)
Definition empty : list hitable := [].

(** [add]: [objects.push_back(object)] *)
Definition add (objects : list hitable) (object : hitable) : list hitable :=
  objects ++ [object].

(** [clear] *)
Definition clear (objects : list hitable) : list hitable := [].

(** [hitable_list(object)]: [add(object)] on the empty list. *)
Definition single (object : hitable) : list hitable := add empty object.

End HitableListOps.

(** ** main.cpp: writing a pixel *)

(** The conversion [int(x)] of a float: truncation toward zero.  (A value
    outside the range of [int] is undefined in C++; the pixel code only
    converts values between 0 and 256.) *)
Definition float_to_int (x : R) : Z :=
  if Rltb x 0 then (- Int_part (- x))%Z else Int_part x.

(** What the pixel loop does with the accumulated colour [col] of a pixel
    once its [ns] samples are summed: average, gamma-correct and clamp each
    channel, scale by 256, and convert the three channels to [int]. *)
Definition write_pixel (col : vec3) (ns : Z) : Z * Z * Z :=
  let col := Vec3.div_assign col (IZR ns) in
  let col := mkvec3 (clamp (sqrt (e0 col)) 0 0.999)
                    (clamp (sqrt (e1 col)) 0 0.999)
                    (clamp (sqrt (e2 col)) 0 0.999) in
  let col := Vec3.scale_assign col 256 in
  (float_to_int (e0 col), float_to_int (e1 col), float_to_int (e2 col)).

(** ** More vocabulary *)

(** The parameter [x] of the ray is a point of the surface of the sphere. *)
Definition on_sphere (s : sphere) (r : ray) (x : R) : Prop :=
  Vec3.squared_length (Ray.at_ r x - center s)%v3 = radius s * radius s.

(** Every sphere of the object, at any depth of nesting, has a material
    pointer satisfying [P]. *)
Fixpoint all_mats (P : option material -> Prop) (o : hitable) : Prop :=
  match o with
  | Sphere s => P (mat s)
  | HitableList objects =>
      (fix go (l : list hitable) : Prop :=
         match l with
         | [] => True
         | o' :: rest => all_mats P o' /\ go rest
         end) objects
  end.

(** The material pointer is set. *)
Definition has_material (m : option material) : Prop := m <> None.

(** The material pointer is set, and not to a Lambertian. *)
Definition specular (m : option material) : Prop :=
  match m with
  | Some (metal _) | Some (dielectric _) => True
  | _ => False
  end.

(** A vector whose three components lie in [lo, hi]. *)
Definition within (lo hi : R) (v : vec3) : Prop :=
  lo <= e0 v <= hi /\ lo <= e1 v <= hi /\ lo <= e2 v <= hi.

(** More concrete inputs: the alternative scene B of main.cpp reduced to its
    metal and glass spheres, and the accumulated colour of a pixel. *)
Definition ex_metal : sphere :=
  mksphere (mkvec3 1 0 (-1)) 0.5 (Some (metal (mkvec3 0.8 0.6 0.2))).
Definition ex_world_specular : hitable :=
  HitableList (HitableListOps.add
                 (HitableListOps.single (Sphere ex_metal)) (Sphere ex_glass)).
Definition ex_pixel_sum : vec3 := mkvec3 100 25 0.

(** Random sources whose generator always draws 1/2: the first candidate of
    [random_in_unit_sphere] is then the centre of the ball. *)
Definition ex_rng_centre : rng :=
  mkrng None (fun _ => 1 / 2) 0 (fun _ => 0%Z) 0.

(** A ray falling straight onto a surface whose normal points up the z
    axis, from outside. *)
Definition ex_up_normal : vec3 := mkvec3 0 0 1.
Definition ex_front_rec : hit_record :=
  mkhit 1 (mkvec3 0 0 (-1)) ex_up_normal (Some (dielectric 1.5)).

(** Every sphere of the object, at any depth of nesting, satisfies [P]. *)
Fixpoint all_spheres (P : sphere -> Prop) (o : hitable) : Prop :=
  match o with
  | Sphere s => P s
  | HitableList objects =>
      (fix go (l : list hitable) : Prop :=
         match l with
         | [] => True
         | o' :: rest => all_spheres P o' /\ go rest
         end) objects
  end.

(** A sphere of non-zero radius. *)
Definition proper_sphere (s : sphere) : Prop := radius s <> 0.

(** A sphere of non-zero radius whose material is Lambertian or metal, with
    an albedo between 0 and 1 in each channel. *)
Definition opaque_sphere (s : sphere) : Prop :=
  radius s <> 0 /\
  match mat s with
  | Some (lambertian albedo) | Some (metal albedo) => within 0 1 albedo
  | _ => False
  end.

(** A ray from the origin straight up; it passes beside the example
    spheres. *)
Definition ex_up_ray : ray := mkray (mkvec3 0 0 0) (mkvec3 0 1 0).

(** A metal sphere above the origin, met by [ex_up_ray] at t = 1, and the
    ray reflected there: from (0,1,0) straight down. *)
Definition ex_mirror : sphere :=
  mksphere (mkvec3 0 2 0) 1 (Some (metal (mkvec3 0.5 0.25 1))).
Definition ex_down_ray : ray := mkray (mkvec3 0 1 0) (mkvec3 0 (-1) 0).

(** * Properties *)

(** ** Boolean comparisons *)

Lemma Rltb_spec (x y : R) : reflect (x < y) (Rltb x y).
Proof. unfold Rltb. destruct (Rlt_dec x y); constructor; assumption. Qed.

Lemma Rgtb_spec (x y : R) : reflect (x > y) (Rgtb x y).
Proof. unfold Rgtb. destruct (Rltb_spec y x); constructor; lra. Qed.

Lemma Rgeb_spec (x y : R) : reflect (x >= y) (Rgeb x y).
Proof. unfold Rgeb. destruct (Rge_dec x y); constructor; assumption. Qed.

Lemma Rltb_true (x y : R) : x < y -> Rltb x y = true.
Proof. intros H. destruct (Rltb_spec x y); [reflexivity | contradiction]. Qed.

Lemma Rltb_false (x y : R) : y <= x -> Rltb x y = false.
Proof. intros H. destruct (Rltb_spec x y); [lra | reflexivity]. Qed.

Lemma Rgtb_true (x y : R) : y < x -> Rgtb x y = true.
Proof. apply Rltb_true. Qed.

Lemma Rgtb_false (x y : R) : x <= y -> Rgtb x y = false.
Proof. apply Rltb_false. Qed.

Lemma in_range_spec (x lo hi : R) :
  Rltb x hi && Rgtb x lo = true <-> lo < x < hi.
Proof.
  destruct (Rltb_spec x hi), (Rgtb_spec x lo); simpl; split;
    intros; try discriminate; try reflexivity; lra.
Qed.

(** ** Vector algebra *)

Lemma vec3_eq (u v : vec3) :
  e0 u = e0 v -> e1 u = e1 v -> e2 u = e2 v -> u = v.
Proof. destruct u, v; simpl; intros; subst; reflexivity. Qed.

Lemma squared_length_dot (v : vec3) : Vec3.squared_length v = Vec3.dot v v.
Proof. reflexivity. Qed.

Lemma squared_length_nonneg (v : vec3) : 0 <= Vec3.squared_length v.
Proof. unfold Vec3.squared_length. nra. Qed.

Lemma squared_length_zero (v : vec3) :
  Vec3.squared_length v = 0 -> v = Vec3.zero.
Proof.
  unfold Vec3.squared_length. intros H.
  apply vec3_eq; simpl; nra.
Qed.

Lemma squared_length_pos (v : vec3) :
  v <> Vec3.zero -> 0 < Vec3.squared_length v.
Proof.
  intros Hv. destruct (Rle_lt_or_eq_dec _ _ (squared_length_nonneg v)) as [H | H].
  - exact H.
  - exfalso. apply Hv, squared_length_zero. symmetry. exact H.
Qed.

Lemma length_unit_squared (n : vec3) :
  Vec3.length n = 1 -> Vec3.squared_length n = 1.
Proof.
  unfold Vec3.length. intros H.
  rewrite <- (sqrt_def (Vec3.squared_length n) (squared_length_nonneg n)).
  rewrite H. ring.
Qed.

Lemma length_of_squared (v : vec3) (k : R) :
  0 <= k -> Vec3.squared_length v = k * k -> Vec3.length v = k.
Proof.
  intros Hk H. unfold Vec3.length. rewrite H. apply sqrt_square. exact Hk.
Qed.

Lemma squared_length_div (v : vec3) (k : R) :
  k <> 0 ->
  Vec3.squared_length (v :/ k)%v3 = Vec3.squared_length v / (k * k).
Proof.
  intros Hk. unfold Vec3.squared_length, Vec3.div. simpl. field. exact Hk.
Qed.

Lemma length_unit_vector (v : vec3) :
  v <> Vec3.zero -> Vec3.length (Vec3.unit_vector v) = 1.
Proof.
  intros Hv. pose proof (squared_length_pos v Hv) as Hpos.
  assert (Hl : 0 < Vec3.length v) by (apply sqrt_lt_R0; exact Hpos).
  apply length_of_squared; [lra |].
  unfold Vec3.unit_vector. rewrite squared_length_div by lra.
  unfold Vec3.length. rewrite sqrt_def by lra. field. lra.
Qed.

(** ** Spheres *)

(** [sphere::hit], with its quantities named. *)
Lemma sphere_hit_unfold (s : sphere) (r : ray) (t_min t_max : R)
    (rec : hit_record) :
  sphere_hit s r t_min t_max rec =
  if Rgtb (sphere_discriminant s r) 0 then
    if in_range (sphere_root1 s r) t_min t_max
    then (true, sphere_record s r (sphere_root1 s r))
    else if in_range (sphere_root2 s r) t_min t_max
         then (true, sphere_record s r (sphere_root2 s r))
         else (false, rec)
  else (false, rec).
Proof. reflexivity. Qed.

Lemma in_range_iff (x lo hi : R) : in_range x lo hi = true <-> lo < x < hi.
Proof. apply in_range_spec. Qed.

Lemma in_range_false (x lo hi : R) :
  in_range x lo hi = false <-> (x <= lo \/ hi <= x).
Proof.
  unfold in_range.
  destruct (Rltb_spec x hi), (Rgtb_spec x lo); simpl; split;
    intros; try discriminate; try reflexivity; lra.
Qed.

(** A positive discriminant needs a non-zero direction: the division by
    [a] in the roots is never a division by zero. *)
Lemma sphere_a_pos (s : sphere) (r : ray) :
  0 < sphere_discriminant s r -> 0 < sphere_a r.
Proof.
  unfold sphere_discriminant, sphere_b, sphere_a. intros Hd.
  pose proof (squared_length_nonneg (Ray.direction r)) as Hn.
  rewrite squared_length_dot in Hn.
  destruct (Rle_lt_or_eq_dec _ _ Hn) as [H | H]; [exact H | exfalso].
  symmetry in H. rewrite H in Hd.
  apply squared_length_zero in H. rewrite H in Hd.
  unfold Vec3.dot, Vec3.zero in Hd. simpl in Hd. nra.
Qed.

Lemma sphere_roots_ordered (s : sphere) (r : ray) :
  0 < sphere_discriminant s r -> sphere_root1 s r < sphere_root2 s r.
Proof.
  intros Hd. pose proof (sphere_a_pos s r Hd) as Ha.
  pose proof (sqrt_lt_R0 _ Hd) as Hs.
  unfold sphere_root1, sphere_root2.
  apply Rmult_lt_compat_r; [apply Rinv_0_lt_compat; exact Ha | lra].
Qed.

(** Inversion of a successful [sphere::hit]. *)
Lemma sphere_hit_inv (s : sphere) (r : ray) (t_min t_max : R)
    (rec h : hit_record) :
  sphere_hit s r t_min t_max rec = (true, h) ->
  exists temp,
    0 < sphere_discriminant s r /\
    (temp = sphere_root1 s r \/ temp = sphere_root2 s r) /\
    t_min < temp < t_max /\
    h = sphere_record s r temp.
Proof.
  rewrite sphere_hit_unfold.
  destruct (Rgtb_spec (sphere_discriminant s r) 0) as [Hd | Hd]; [| discriminate].
  destruct (in_range (sphere_root1 s r) t_min t_max) eqn:E1;
    [| destruct (in_range (sphere_root2 s r) t_min t_max) eqn:E2; [| discriminate]];
    intros H; injection H as <-.
  - exists (sphere_root1 s r). rewrite in_range_iff in E1. auto with real.
  - exists (sphere_root2 s r). rewrite in_range_iff in E2. auto with real.
Qed.

Lemma sphere_query_unfold (s : sphere) (r : ray) (t_min t_max : R) :
  query (sphere_hit s) r t_min t_max =
  if Rgtb (sphere_discriminant s r) 0 then
    if in_range (sphere_root1 s r) t_min t_max
    then Some (sphere_record s r (sphere_root1 s r))
    else if in_range (sphere_root2 s r) t_min t_max
         then Some (sphere_record s r (sphere_root2 s r))
         else None
  else None.
Proof.
  unfold query. rewrite sphere_hit_unfold.
  destruct (Rgtb _ 0); [| reflexivity].
  destruct (in_range (sphere_root1 s r) _ _); [reflexivity |].
  destruct (in_range (sphere_root2 s r) _ _); reflexivity.
Qed.

Lemma sphere_regular (s : sphere) : regular (sphere_hit s).
Proof.
  constructor.
  - intros r t_min t_max rec.
    rewrite sphere_query_unfold, sphere_hit_unfold.
    destruct (Rgtb _ 0); [| reflexivity].
    destruct (in_range (sphere_root1 s r) _ _); [reflexivity |].
    destruct (in_range (sphere_root2 s r) _ _); reflexivity.
  - intros r t_min t_max h. rewrite sphere_query_unfold.
    destruct (Rgtb _ 0); [| discriminate].
    destruct (in_range (sphere_root1 s r) _ _) eqn:E1.
    + intros [= <-]. apply in_range_iff in E1. exact E1.
    + destruct (in_range (sphere_root2 s r) _ _) eqn:E2; [| discriminate].
      intros [= <-]. apply in_range_iff in E2. exact E2.
  - intros r t_min t_max h. rewrite sphere_query_unfold.
    destruct (Rgtb _ 0); [| discriminate].
    destruct (in_range (sphere_root1 s r) _ _).
    + intros [= <-]. reflexivity.
    + destruct (in_range (sphere_root2 s r) _ _); [| discriminate].
      intros [= <-]. reflexivity.
  - intros r t_min t_max c Hc. rewrite !sphere_query_unfold.
    destruct (Rgtb_spec (sphere_discriminant s r) 0) as [Hd | Hd]; [| reflexivity].
    pose proof (sphere_roots_ordered s r Hd) as Hord.
    destruct (in_range (sphere_root1 s r) t_min t_max) eqn:E1;
      [| destruct (in_range (sphere_root2 s r) t_min t_max) eqn:E2];
      simpl t;
      repeat match goal with
      | H : in_range _ _ _ = true |- _ => apply in_range_iff in H
      | H : in_range _ _ _ = false |- _ => apply in_range_false in H
      end.
    + destruct (Rltb_spec (sphere_root1 s r) c) as [Hlt | Hge].
      * rewrite (proj2 (in_range_iff _ _ _)) by lra. reflexivity.
      * rewrite (proj2 (in_range_false _ _ _)) by lra.
        rewrite (proj2 (in_range_false _ _ _)) by lra. reflexivity.
    + rewrite (proj2 (in_range_false (sphere_root1 s r) _ _)) by lra.
      destruct (Rltb_spec (sphere_root2 s r) c) as [Hlt | Hge].
      * rewrite (proj2 (in_range_iff _ _ _)) by lra. reflexivity.
      * rewrite (proj2 (in_range_false _ _ _)) by lra. reflexivity.
    + rewrite (proj2 (in_range_false (sphere_root1 s r) _ _)) by lra.
      rewrite (proj2 (in_range_false (sphere_root2 s r) _ _)) by lra.
      reflexivity.
Qed.

(** ** The loop of [hitable_list::hit] *)

Section LoopFacts.

Variable object : Type.
Variable object_hit : object -> hit_fn.

(** The loop computes [nearest]; when no object answers, the flag and the
    caller's record come out as they went in. *)
Lemma hit_loop_nearest (objects : list object) :
  Forall (fun o => regular (object_hit o)) objects ->
  forall r t_min temp_rec hit_anything c rec,
    hit_loop object object_hit objects r t_min temp_rec hit_anything c rec =
    match nearest object object_hit objects r t_min c with
    | Some h => (true, h)
    | None => (hit_anything, rec)
    end.
Proof.
  induction 1 as [| o rest Ho _ IH]; intros; simpl; [reflexivity |].
  rewrite (reg_frame _ Ho).
  destruct (query (object_hit o) r t_min c) as [h |].
  - rewrite IH. destruct (nearest object object_hit rest r t_min (t h)); reflexivity.
  - apply IH.
Qed.

Lemma nearest_range (objects : list object) :
  Forall (fun o => regular (object_hit o)) objects ->
  forall r t_min c h,
    nearest object object_hit objects r t_min c = Some h -> t_min < t h < c.
Proof.
  induction 1 as [| o rest Ho _ IH]; intros r t_min c h; simpl;
    [discriminate |].
  destruct (query (object_hit o) r t_min c) as [h0 |] eqn:E0.
  - pose proof (reg_range _ Ho _ _ _ _ E0) as R0.
    destruct (nearest object object_hit rest r t_min (t h0)) as [h1 |] eqn:E1; intros [= <-].
    + apply IH in E1. lra.
    + exact R0.
  - apply IH.
Qed.

Lemma nearest_point (objects : list object) :
  Forall (fun o => regular (object_hit o)) objects ->
  forall r t_min c h,
    nearest object object_hit objects r t_min c = Some h -> p h = Ray.at_ r (t h).
Proof.
  induction 1 as [| o rest Ho _ IH]; intros r t_min c h; simpl;
    [discriminate |].
  destruct (query (object_hit o) r t_min c) as [h0 |] eqn:E0.
  - destruct (nearest object object_hit rest r t_min (t h0)) as [h1 |] eqn:E1; intros [= <-].
    + eapply IH, E1.
    + eapply reg_point; eassumption.
  - apply IH.
Qed.

Lemma nearest_shrink (objects : list object) :
  Forall (fun o => regular (object_hit o)) objects ->
  forall r t_min t_max c, c <= t_max ->
    nearest object object_hit objects r t_min c =
    match nearest object object_hit objects r t_min t_max with
    | Some h => if Rltb (t h) c then Some h else None
    | None => None
    end.
Proof.
  induction 1 as [| o rest Ho Hrest IH]; intros r t_min t_max c Hc; simpl;
    [reflexivity |].
  rewrite (reg_shrink _ Ho r t_min t_max c Hc).
  destruct (query (object_hit o) r t_min t_max) as [h0 |] eqn:E0; [| apply IH; exact Hc].
  pose proof (reg_range _ Ho _ _ _ _ E0) as R0.
  destruct (Rltb_spec (t h0) c) as [Hlt | Hge].
  - destruct (nearest object object_hit rest r t_min (t h0)) as [h1 |] eqn:E1.
    + pose proof (nearest_range rest Hrest _ _ _ _ E1) as R1.
      rewrite Rltb_true by lra. reflexivity.
    + rewrite Rltb_true by lra. reflexivity.
  - rewrite (IH r t_min (t h0) c) by lra.
    destruct (nearest object object_hit rest r t_min (t h0)) as [h1 |]; [reflexivity |].
    rewrite Rltb_false by lra. reflexivity.
Qed.

(** [nearest] reports the answer of one of the objects over the range it
    was started with. *)
Lemma nearest_in (objects : list object) :
  Forall (fun o => regular (object_hit o)) objects ->
  forall r t_min c h,
    nearest object object_hit objects r t_min c = Some h ->
    exists o, In o objects /\ query (object_hit o) r t_min c = Some h.
Proof.
  induction 1 as [| o rest Ho Hrest IH]; intros r t_min c h; simpl;
    [discriminate |].
  destruct (query (object_hit o) r t_min c) as [h0 |] eqn:E0.
  - pose proof (reg_range _ Ho _ _ _ _ E0) as R0.
    destruct (nearest object object_hit rest r t_min (t h0)) as [h1 |] eqn:E1; intros [= <-].
    + pose proof (nearest_range rest Hrest _ _ _ _ E1) as R1.
      destruct (IH _ _ _ _ E1) as (o' & Hin & Hq).
      exists o'. split; [right; exact Hin |].
      pose proof (Forall_forall (fun o => regular (object_hit o)) rest) as FF.
      pose proof (proj1 FF Hrest o' Hin) as Ho'.
      rewrite (reg_shrink _ Ho' r t_min c (t h0)) in Hq by lra.
      destruct (query (object_hit o') r t_min c) as [h2 |]; [| discriminate].
      destruct (Rltb (t h2) (t h0)); [exact Hq | discriminate].
    + exists o. split; [left; reflexivity | exact E0].
  - intros E. destruct (IH _ _ _ _ E) as (o' & Hin & Hq).
    exists o'. split; [right; exact Hin | exact Hq].
Qed.

(** [nearest] misses exactly when every object misses. *)
Lemma nearest_none (objects : list object) :
  Forall (fun o => regular (object_hit o)) objects ->
  forall r t_min c,
    nearest object object_hit objects r t_min c = None <->
    (forall o, In o objects -> query (object_hit o) r t_min c = None).
Proof.
  induction 1 as [| o0 rest Ho Hrest IH]; intros r t_min c; simpl.
  - split; [intros _ o [] | reflexivity].
  - pose proof (Forall_forall (fun o => regular (object_hit o)) rest) as FF.
    destruct (query (object_hit o0) r t_min c) as [h0 |] eqn:E0.
    + split.
      * destruct (nearest object object_hit rest r t_min (t h0)); discriminate.
      * intros Hall. specialize (Hall o0 (or_introl eq_refl)).
        rewrite E0 in Hall. discriminate.
    + rewrite IH. split.
      * intros Hall o [-> | Hin]; [exact E0 | apply Hall; exact Hin].
      * intros Hall o Hin. apply Hall. right. exact Hin.
Qed.

(** No object answers below what [nearest] reports. *)
Lemma nearest_least (objects : list object) :
  Forall (fun o => regular (object_hit o)) objects ->
  forall r t_min c h o h',
    nearest object object_hit objects r t_min c = Some h ->
    In o objects -> query (object_hit o) r t_min c = Some h' -> t h <= t h'.
Proof.
  induction 1 as [| o0 rest Ho Hrest IH]; intros r t_min c h o h'; simpl;
    [discriminate |].
  pose proof (Forall_forall (fun o => regular (object_hit o)) rest) as FF.
  destruct (query (object_hit o0) r t_min c) as [h0 |] eqn:E0.
  - pose proof (reg_range _ Ho _ _ _ _ E0) as R0.
    destruct (nearest object object_hit rest r t_min (t h0)) as [h1 |] eqn:E1;
      intros [= <-] [-> | Hin] Hq.
    + pose proof (nearest_range rest Hrest _ _ _ _ E1) as R1.
      rewrite E0 in Hq. injection Hq as <-. lra.
    + pose proof (nearest_range rest Hrest _ _ _ _ E1) as R1.
      pose proof (proj1 FF Hrest o Hin) as Ho'.
      destruct (Rltb_spec (t h') (t h0)) as [Hlt | Hge]; [| lra].
      apply (IH r t_min (t h0) h1 o h' E1 Hin).
      rewrite (reg_shrink _ Ho' r t_min c (t h0)) by lra.
      rewrite Hq. rewrite Rltb_true by exact Hlt. reflexivity.
    + rewrite E0 in Hq. injection Hq as <-. lra.
    + pose proof (proj1 FF Hrest o Hin) as Ho'.
      destruct (Rltb_spec (t h') (t h0)) as [Hlt | Hge]; [exfalso | lra].
      pose proof (proj1 (nearest_none rest Hrest r t_min (t h0)) E1 o Hin) as Hn.
      rewrite (reg_shrink _ Ho' r t_min c (t h0)) in Hn by lra.
      rewrite Hq in Hn. rewrite Rltb_true in Hn by exact Hlt. discriminate.
  - intros E [-> | Hin] Hq.
    + rewrite E0 in Hq. discriminate.
    + eapply IH; eassumption.
Qed.

End LoopFacts.

(** ** Every [hitable] honours the contract *)

Lemma hitable_induction (P : hitable -> Prop) :
  (forall s, P (Sphere s)) ->
  (forall objects, Forall P objects -> P (HitableList objects)) ->
  forall o, P o.
Proof.
  intros HS HL. fix IH 1. intros [s | objects].
  - apply HS.
  - apply HL. induction objects as [| o rest IHrest]; constructor.
    + apply IH.
    + exact IHrest.
Qed.

Lemma list_query_nearest (objects : list hitable) :
  Forall (fun o => regular (hit o)) objects ->
  forall r t_min t_max,
    query (hit (HitableList objects)) r t_min t_max =
    nearest hitable hit objects r t_min t_max.
Proof.
  intros Hreg r t_min t_max. unfold query. simpl. unfold hitable_list_hit.
  rewrite (hit_loop_nearest hitable hit objects Hreg).
  destruct (nearest hitable hit objects r t_min t_max); reflexivity.
Qed.

Lemma hit_regular (o : hitable) : regular (hit o).
Proof.
  induction o as [s | objects Hreg] using hitable_induction.
  - exact (sphere_regular s).
  - constructor.
    + intros r t_min t_max rec. rewrite (list_query_nearest objects Hreg).
      simpl. unfold hitable_list_hit.
      apply (hit_loop_nearest hitable hit objects Hreg).
    + intros r t_min t_max h. rewrite (list_query_nearest objects Hreg).
      apply (nearest_range hitable hit objects Hreg).
    + intros r t_min t_max h. rewrite (list_query_nearest objects Hreg).
      apply (nearest_point hitable hit objects Hreg).
    + intros r t_min t_max c Hc. rewrite !(list_query_nearest objects Hreg).
      apply (nearest_shrink hitable hit objects Hreg). exact Hc.
Qed.

Lemma all_regular (objects : list hitable) :
  Forall (fun o => regular (hit o)) objects.
Proof. apply Forall_forall. intros o _. apply hit_regular. Qed.

(** A hit, seen from any caller's record, is the answer of [query]. *)
Lemma hit_true_query (o : hitable) (r : ray) (t_min t_max : R)
    (rec h : hit_record) :
  hit o r t_min t_max rec = (true, h) <-> query (hit o) r t_min t_max = Some h.
Proof.
  rewrite (reg_frame _ (hit_regular o)).
  destruct (query (hit o) r t_min t_max) as [h0 |]; split; intros H;
    try discriminate; injection H as <-; reflexivity.
Qed.

Lemma hit_false_query (o : hitable) (r : ray) (t_min t_max : R)
    (rec rec' : hit_record) :
  hit o r t_min t_max rec = (false, rec') <->
  query (hit o) r t_min t_max = None /\ rec' = rec.
Proof.
  rewrite (reg_frame _ (hit_regular o)).
  destruct (query (hit o) r t_min t_max) as [h0 |]; split.
  - discriminate.
  - intros [H _]. discriminate.
  - intros [= <-]. split; reflexivity.
  - intros [_ ->]. reflexivity.
Qed.

(** The result of a hit test does not depend on the record passed in,
    except that a miss hands that record back. *)
Lemma hit_any_rec (o : hitable) (r : ray) (t_min t_max : R)
    (rec rec0 : hit_record) :
  fst (hit o r t_min t_max rec) = fst (hit o r t_min t_max rec0) /\
  (fst (hit o r t_min t_max rec) = true ->
   snd (hit o r t_min t_max rec) = snd (hit o r t_min t_max rec0)).
Proof.
  rewrite !(reg_frame _ (hit_regular o)).
  destruct (query (hit o) r t_min t_max); simpl; split;
    try reflexivity; discriminate.
Qed.

Lemma hitable_list_hit_nearest (objects : list hitable) (r : ray)
    (t_min t_max : R) (rec : hit_record) :
  hitable_list_hit hitable hit objects r t_min t_max rec =
  match nearest hitable hit objects r t_min t_max with
  | Some h => (true, h)
  | None => (false, rec)
  end.
Proof.
  unfold hitable_list_hit. apply hit_loop_nearest, all_regular.
Qed.

Lemma hits_of_hit (objects : list hitable) (r : ray) (t_min t_max : R)
    (h : hit_record) :
  hits_of objects r t_min t_max h <->
  exists o rec, In o objects /\ hit o r t_min t_max rec = (true, h).
Proof.
  unfold hits_of. split.
  - intros (o & Hin & Hq). exists o, hit_record_uninit.
    split; [exact Hin | apply hit_true_query; exact Hq].
  - intros (o & rec & Hin & Hh). exists o.
    split; [exact Hin | eapply hit_true_query; exact Hh].
Qed.

(** [nearest] is a least element of the objects' hits. *)
Lemma nearest_some_spec (objects : list hitable) (r : ray) (t_min t_max : R)
    (h : hit_record) :
  nearest hitable hit objects r t_min t_max = Some h ->
  hits_of objects r t_min t_max h /\
  (forall h', hits_of objects r t_min t_max h' -> t h <= t h').
Proof.
  intros E. split.
  - apply (nearest_in hitable hit objects (all_regular objects)). exact E.
  - intros h' (o & Hin & Hq).
    eapply (nearest_least hitable hit objects (all_regular objects)); eassumption.
Qed.

Lemma nearest_none_spec (objects : list hitable) (r : ray) (t_min t_max : R) :
  nearest hitable hit objects r t_min t_max = None <->
  (forall h, ~ hits_of objects r t_min t_max h).
Proof.
  rewrite (nearest_none hitable hit objects (all_regular objects)). split.
  - intros Hall h (o & Hin & Hq). rewrite (Hall o Hin) in Hq. discriminate.
  - intros Hno o Hin.
    destruct (query (hit o) r t_min t_max) as [h |] eqn:E; [| reflexivity].
    exfalso. apply (Hno h). exists o. split; assumption.
Qed.

Lemma hits_of_perm (l l' : list hitable) (r : ray) (t_min t_max : R)
    (h : hit_record) :
  Permutation l l' ->
  hits_of l r t_min t_max h -> hits_of l' r t_min t_max h.
Proof.
  intros HP (o & Hin & Hq). exists o.
  split; [eapply Permutation_in; eassumption | exact Hq].
Qed.

(** ** Evaluating [sphere::hit] on the example spheres *)

Ltac unfold_sphere :=
  unfold sphere_root1, sphere_root2, sphere_discriminant, sphere_c, sphere_b,
    sphere_a, sphere_oc, Vec3.dot, Vec3.sub, Ray.origin, Ray.direction;
  simpl.

Lemma sphere_roots_eval (s : sphere) (r : ray) (d : R) :
  0 <= d -> sphere_discriminant s r = d * d ->
  sphere_root1 s r = (- sphere_b s r - d) / sphere_a r /\
  sphere_root2 s r = (- sphere_b s r + d) / sphere_a r.
Proof.
  intros Hd E. unfold sphere_root1, sphere_root2.
  rewrite E, (sqrt_square d Hd). split; reflexivity.
Qed.

Lemma ex_near_eval :
  sphere_discriminant ex_near ex_ray = 1 /\
  sphere_root1 ex_near ex_ray = 1 /\ sphere_root2 ex_near ex_ray = 3.
Proof.
  assert (E : sphere_discriminant ex_near ex_ray = 1 * 1) by (unfold_sphere; lra).
  destruct (sphere_roots_eval ex_near ex_ray 1 ltac:(lra) E) as [E1 E2].
  rewrite E, E1, E2. unfold_sphere. repeat split; lra.
Qed.

Lemma ex_far_eval :
  sphere_discriminant ex_far ex_ray = 1 /\
  sphere_root1 ex_far ex_ray = 4 /\ sphere_root2 ex_far ex_ray = 6.
Proof.
  assert (E : sphere_discriminant ex_far ex_ray = 1 * 1) by (unfold_sphere; lra).
  destruct (sphere_roots_eval ex_far ex_ray 1 ltac:(lra) E) as [E1 E2].
  rewrite E, E1, E2. unfold_sphere. repeat split; lra.
Qed.

Lemma ex_wide_eval :
  sphere_discriminant ex_wide ex_ray = 4 /\
  sphere_root1 ex_wide ex_ray = 1 /\ sphere_root2 ex_wide ex_ray = 5.
Proof.
  assert (E : sphere_discriminant ex_wide ex_ray = 2 * 2) by (unfold_sphere; lra).
  destruct (sphere_roots_eval ex_wide ex_ray 2 ltac:(lra) E) as [E1 E2].
  rewrite E, E1, E2. unfold_sphere. repeat split; lra.
Qed.

(** [sphere::hit] once the discriminant and the roots are known. *)
Lemma sphere_query_known (s : sphere) (r : ray) (t_min t_max d r1 r2 : R) :
  sphere_discriminant s r = d /\ sphere_root1 s r = r1 /\ sphere_root2 s r = r2 ->
  0 < d ->
  query (hit (Sphere s)) r t_min t_max =
  if in_range r1 t_min t_max then Some (sphere_record s r r1)
  else if in_range r2 t_min t_max then Some (sphere_record s r r2)
  else None.
Proof.
  intros (Ed & E1 & E2) Hd.
  change (query (hit (Sphere s)) r t_min t_max)
    with (query (sphere_hit s) r t_min t_max).
  rewrite sphere_query_unfold, Ed, E1, E2, Rgtb_true by exact Hd. reflexivity.
Qed.

Lemma in_range_true (x lo hi : R) : lo < x < hi -> in_range x lo hi = true.
Proof. apply in_range_iff. Qed.

Lemma in_range_out (x lo hi : R) : x <= lo \/ hi <= x -> in_range x lo hi = false.
Proof. apply in_range_false. Qed.

Ltac decide_range :=
  repeat first
    [ rewrite in_range_true by (simpl; lra)
    | rewrite in_range_out by (simpl; lra) ].

Lemma ex_near_query (t_min t_max : R) :
  query (hit (Sphere ex_near)) ex_ray t_min t_max =
  if in_range 1 t_min t_max then Some (sphere_record ex_near ex_ray 1)
  else if in_range 3 t_min t_max then Some (sphere_record ex_near ex_ray 3)
  else None.
Proof. apply (sphere_query_known _ _ _ _ 1), Rlt_0_1. exact ex_near_eval. Qed.

Lemma ex_far_query (t_min t_max : R) :
  query (hit (Sphere ex_far)) ex_ray t_min t_max =
  if in_range 4 t_min t_max then Some (sphere_record ex_far ex_ray 4)
  else if in_range 6 t_min t_max then Some (sphere_record ex_far ex_ray 6)
  else None.
Proof. apply (sphere_query_known _ _ _ _ 1), Rlt_0_1. exact ex_far_eval. Qed.

Lemma ex_wide_query (t_min t_max : R) :
  query (hit (Sphere ex_wide)) ex_ray t_min t_max =
  if in_range 1 t_min t_max then Some (sphere_record ex_wide ex_ray 1)
  else if in_range 5 t_min t_max then Some (sphere_record ex_wide ex_ray 5)
  else None.
Proof.
  apply (sphere_query_known _ _ _ _ 4); [exact ex_wide_eval | lra].
Qed.

(** The far sphere first, the near one second: the near one is reported. *)
Lemma ex_far_near_hit (rec : hit_record) :
  hitable_list_hit hitable hit [Sphere ex_far; Sphere ex_near] ex_ray 0 10 rec =
  (true, sphere_record ex_near ex_ray 1).
Proof.
  rewrite hitable_list_hit_nearest. simpl.
  rewrite ex_far_query. decide_range. simpl t.
  rewrite ex_near_query. decide_range. reflexivity.
Qed.

(** Two spheres met at the same t = 1: the one listed first is reported. *)
Lemma ex_near_wide_hit (rec : hit_record) :
  hitable_list_hit hitable hit [Sphere ex_near; Sphere ex_wide] ex_ray 0 10 rec =
  (true, sphere_record ex_near ex_ray 1).
Proof.
  rewrite hitable_list_hit_nearest. simpl.
  rewrite ex_near_query. decide_range. simpl t.
  rewrite ex_wide_query. decide_range. reflexivity.
Qed.

Lemma ex_wide_near_hit (rec : hit_record) :
  hitable_list_hit hitable hit [Sphere ex_wide; Sphere ex_near] ex_ray 0 10 rec =
  (true, sphere_record ex_wide ex_ray 1).
Proof.
  rewrite hitable_list_hit_nearest. simpl.
  rewrite ex_wide_query. decide_range. simpl t.
  rewrite ex_near_query. decide_range. reflexivity.
Qed.

(** ** Properties of the intersection tests *)

(** C1.  For every ray, every range with [t_min < t_max] and every list of
    primitives, [hitable_list::hit] returns true exactly when some primitive
    of the list has a hit over the full range; and when it does, the record
    it returns is the hit of one of the primitives over the full range, and
    its [t] is less than or equal to the [t] of every hit any primitive of
    the list reports over the full range. *)
Theorem hitable_list_hit_closest (objects : list hitable) (r : ray)
    (t_min t_max : R) (rec : hit_record) :
  t_min < t_max ->
  let res := hitable_list_hit hitable hit objects r t_min t_max rec in
  (fst res = true <->
   exists o rec0 h, In o objects /\ hit o r t_min t_max rec0 = (true, h)) /\
  (fst res = true ->
   (exists o rec0, In o objects /\ hit o r t_min t_max rec0 = (true, snd res)) /\
   (forall o rec0 h, In o objects ->
      hit o r t_min t_max rec0 = (true, h) -> t (snd res) <= t h)).
Proof.
  intros _. cbv zeta. rewrite hitable_list_hit_nearest.
  destruct (nearest hitable hit objects r t_min t_max) as [h0 |] eqn:E; simpl.
  - destruct (nearest_some_spec _ _ _ _ _ E) as [Hin Hleast].
    apply hits_of_hit in Hin. split; [split |].
    + intros _. destruct Hin as (o & rec0 & Ho & Hh). exists o, rec0, h0. auto.
    + reflexivity.
    + intros _. split; [exact Hin | ].
      intros o rec0 h Ho Hh. apply Hleast, hits_of_hit. exists o, rec0. auto.
  - split; [split |]; try discriminate.
    intros (o & rec0 & h & Ho & Hh). exfalso.
    apply (proj1 (nearest_none_spec _ _ _ _) E h), hits_of_hit.
    exists o, rec0. auto.
Qed.

Lemma hitable_list_hit_closest_witness :
  let res := hitable_list_hit hitable hit [Sphere ex_far; Sphere ex_near]
               ex_ray 0 10 hit_record_uninit in
  (fst res = true <->
   exists o rec0 h, In o [Sphere ex_far; Sphere ex_near] /\
                    hit o ex_ray 0 10 rec0 = (true, h)) /\
  (fst res = true ->
   (exists o rec0, In o [Sphere ex_far; Sphere ex_near] /\
                   hit o ex_ray 0 10 rec0 = (true, snd res)) /\
   (forall o rec0 h, In o [Sphere ex_far; Sphere ex_near] ->
      hit o ex_ray 0 10 rec0 = (true, h) -> t (snd res) <= t h)).
Proof.
  apply (hitable_list_hit_closest [Sphere ex_far; Sphere ex_near] ex_ray 0 10
           hit_record_uninit).
  lra.
Defined.

(** C5.  For every ray, every sphere and every range with [t_min < t_max],
    whenever [sphere::hit] returns true the reported [t] satisfies
    [t_min < t < t_max] strictly. *)
Theorem sphere_hit_in_range (s : sphere) (r : ray) (t_min t_max : R)
    (rec h : hit_record) :
  t_min < t_max ->
  sphere_hit s r t_min t_max rec = (true, h) ->
  t_min < t h < t_max.
Proof.
  intros _ H. apply sphere_hit_inv in H.
  destruct H as (temp & _ & _ & Hr & ->). exact Hr.
Qed.

Lemma ex_near_hit (rec : hit_record) :
  sphere_hit ex_near ex_ray 0 10 rec = (true, sphere_record ex_near ex_ray 1).
Proof.
  apply (hit_true_query (Sphere ex_near)).
  rewrite ex_near_query. decide_range. reflexivity.
Qed.

Lemma sphere_hit_in_range_witness :
  0 < t (sphere_record ex_near ex_ray 1) < 10.
Proof.
  apply (sphere_hit_in_range ex_near ex_ray 0 10 hit_record_uninit).
  - lra.
  - apply ex_near_hit.
Defined.

(** C10.  For every ray, every range with [t_min < t_max] and every sphere
    or list of primitives, when the hit test returns false the caller's
    [hit_record] is left unchanged. *)
Theorem hit_miss_leaves_rec (r : ray) (t_min t_max : R) (rec : hit_record) :
  t_min < t_max ->
  (forall s rec', sphere_hit s r t_min t_max rec = (false, rec') -> rec' = rec) /\
  (forall objects rec',
     hitable_list_hit hitable hit objects r t_min t_max rec = (false, rec') ->
     rec' = rec).
Proof.
  intros _. split.
  - intros s rec' H. apply (hit_false_query (Sphere s)) in H. apply H.
  - intros objects rec' H. apply (hit_false_query (HitableList objects)) in H.
    apply H.
Qed.

Lemma hit_miss_leaves_rec_witness :
  (forall s rec', sphere_hit s ex_ray 0 10 (sphere_record ex_far ex_ray 4)
                  = (false, rec') -> rec' = sphere_record ex_far ex_ray 4) /\
  (forall objects rec',
     hitable_list_hit hitable hit objects ex_ray 0 10
       (sphere_record ex_far ex_ray 4) = (false, rec') ->
     rec' = sphere_record ex_far ex_ray 4).
Proof.
  apply (hit_miss_leaves_rec ex_ray 0 10 (sphere_record ex_far ex_ray 4)). lra.
Defined.

(** The record [nearest] reports belongs to an object before which every
    object misses or answers with a strictly larger [t]. *)
Lemma nearest_first (objects : list hitable) (r : ray) (t_min c : R)
    (h : hit_record) :
  nearest hitable hit objects r t_min c = Some h ->
  exists before o after,
    objects = before ++ o :: after /\
    query (hit o) r t_min c = Some h /\
    (forall o' h', In o' before ->
       query (hit o') r t_min c = Some h' -> t h < t h').
Proof.
  revert c h. induction objects as [| o0 rest IH]; intros c h; simpl;
    [discriminate |].
  destruct (query (hit o0) r t_min c) as [h0 |] eqn:E0.
  - pose proof (reg_range _ (hit_regular o0) _ _ _ _ E0) as R0.
    destruct (nearest hitable hit rest r t_min (t h0)) as [h1 |] eqn:E1;
      intros [= <-].
    + destruct (IH _ _ E1) as (before & o & after & -> & Hq & Hbefore).
      pose proof (reg_range _ (hit_regular o) _ _ _ _ Hq) as R1.
      exists (o0 :: before), o, after. split; [reflexivity |]. split.
      * rewrite (reg_shrink _ (hit_regular o) r t_min c (t h0)) in Hq by lra.
        destruct (query (hit o) r t_min c) as [h2 |]; [| discriminate].
        destruct (Rltb (t h2) (t h0)); [exact Hq | discriminate].
      * intros o' h' [<- | Hin] Hq'.
        -- rewrite E0 in Hq'. injection Hq' as <-. lra.
        -- destruct (Rltb_spec (t h') (t h0)) as [Hlt | Hge]; [| lra].
           apply (Hbefore o' h' Hin).
           rewrite (reg_shrink _ (hit_regular o') r t_min c (t h0)) by lra.
           rewrite Hq'. rewrite Rltb_true by exact Hlt. reflexivity.
    + exists [], o0, rest. split; [reflexivity |]. split; [exact E0 |].
      intros o' h' [].
  - intros E. destruct (IH _ _ E) as (before & o & after & -> & Hq & Hbefore).
    exists (o0 :: before), o, after. split; [reflexivity |].
    split; [exact Hq |].
    intros o' h' [<- | Hin] Hq'.
    + rewrite E0 in Hq'. discriminate.
    + exact (Hbefore o' h' Hin Hq').
Qed.

Lemma nearest_first_least (objects : list hitable) (r : ray) (t_min t_max : R)
    (h : hit_record) :
  nearest hitable hit objects r t_min t_max = Some h ->
  first_least objects r t_min t_max h.
Proof.
  intros E. destruct (nearest_first _ _ _ _ _ E)
    as (before & o & after & Heq & Hq & Hbefore).
  exists before, o, after. split; [exact Heq |]. split.
  - exists hit_record_uninit. apply hit_true_query. exact Hq.
  - intros o' rec' h' Hin Hh. apply (Hbefore o' h' Hin).
    eapply hit_true_query. exact Hh.
Qed.

(** C8, as the code has it.  For every ray, every range with
    [t_min < t_max] and every two lists of primitives that are permutations
    of each other, [hitable_list::hit] returns the same boolean, and records
    with the same [t] and the same point [p]; the whole record (normal and
    material included) is the same whenever no two hits of the primitives
    share their [t] without being the same record.  When several primitives
    are hit at the same least [t], the record of the one inserted first is
    returned: in either list, every primitive inserted before the one whose
    record is returned misses or is hit at a strictly larger [t]. *)
Theorem hitable_list_hit_permutation (l l' : list hitable) (r : ray)
    (t_min t_max : R) (rec : hit_record) :
  t_min < t_max ->
  Permutation l l' ->
  let res := hitable_list_hit hitable hit l r t_min t_max rec in
  let res' := hitable_list_hit hitable hit l' r t_min t_max rec in
  fst res = fst res' /\
  t (snd res) = t (snd res') /\
  p (snd res) = p (snd res') /\
  ((forall o1 o2 rec1 rec2 h1 h2, In o1 l -> In o2 l ->
      hit o1 r t_min t_max rec1 = (true, h1) ->
      hit o2 r t_min t_max rec2 = (true, h2) ->
      t h1 = t h2 -> h1 = h2) ->
   res = res') /\
  (fst res = true -> first_least l r t_min t_max (snd res)) /\
  (fst res' = true -> first_least l' r t_min t_max (snd res')).
Proof.
  intros _ HP. cbv zeta. rewrite !hitable_list_hit_nearest.
  destruct (nearest hitable hit l r t_min t_max) as [h |] eqn:E;
    destruct (nearest hitable hit l' r t_min t_max) as [h' |] eqn:E'; simpl.
  - destruct (nearest_some_spec _ _ _ _ _ E) as [Hin Hleast].
    destruct (nearest_some_spec _ _ _ _ _ E') as [Hin' Hleast'].
    assert (Ht : t h = t h').
    { apply Rle_antisym.
      - apply Hleast. eapply hits_of_perm; [symmetry |]; eassumption.
      - apply Hleast'. eapply hits_of_perm; eassumption. }
    split; [reflexivity |]. split; [exact Ht | ]. split; [| split; [| split]].
    + rewrite (nearest_point hitable hit l (all_regular l) _ _ _ _ E).
      rewrite (nearest_point hitable hit l' (all_regular l') _ _ _ _ E').
      rewrite Ht. reflexivity.
    + intros Hties. f_equal.
      destruct Hin as (o1 & Ho1 & Hq1).
      apply (hits_of_perm l' l) in Hin'; [| symmetry; exact HP].
      destruct Hin' as (o2 & Ho2 & Hq2).
      apply (Hties o1 o2 hit_record_uninit hit_record_uninit);
        try assumption; apply hit_true_query; assumption.
    + intros _. apply nearest_first_least. exact E.
    + intros _. apply nearest_first_least. exact E'.
  - exfalso. destruct (nearest_some_spec _ _ _ _ _ E) as [Hin _].
    apply (proj1 (nearest_none_spec _ _ _ _) E' h).
    eapply hits_of_perm; eassumption.
  - exfalso. destruct (nearest_some_spec _ _ _ _ _ E') as [Hin' _].
    apply (proj1 (nearest_none_spec _ _ _ _) E h').
    eapply hits_of_perm; [symmetry |]; eassumption.
  - repeat split; try reflexivity; discriminate.
Qed.

Lemma hitable_list_hit_permutation_witness :
  let res := hitable_list_hit hitable hit [Sphere ex_near; Sphere ex_wide]
               ex_ray 0 10 hit_record_uninit in
  let res' := hitable_list_hit hitable hit [Sphere ex_wide; Sphere ex_near]
                ex_ray 0 10 hit_record_uninit in
  fst res = fst res' /\ t (snd res) = t (snd res') /\ p (snd res) = p (snd res') /\
  first_least [Sphere ex_near; Sphere ex_wide] ex_ray 0 10
              (sphere_record ex_near ex_ray 1) /\
  first_least [Sphere ex_wide; Sphere ex_near] ex_ray 0 10
              (sphere_record ex_wide ex_ray 1).
Proof.
  pose proof (hitable_list_hit_permutation
                [Sphere ex_near; Sphere ex_wide] [Sphere ex_wide; Sphere ex_near]
                ex_ray 0 10 hit_record_uninit ltac:(lra)
                (perm_swap (Sphere ex_wide) (Sphere ex_near) [])) as H.
  cbv zeta in H. destruct H as (H1 & H2 & H3 & _ & H5 & H6).
  rewrite ex_near_wide_hit in H5. rewrite ex_wide_near_hit in H6.
  specialize (H5 eq_refl). specialize (H6 eq_refl). auto.
Defined.

(** C8 as stated fails: two spheres met at the same [t] are reported in
    insertion order, and the material of the returned record follows. *)
Lemma hitable_list_hit_order_matters :
  0 < 10 /\
  Permutation [Sphere ex_near; Sphere ex_wide] [Sphere ex_wide; Sphere ex_near] /\
  mat_ptr (snd (hitable_list_hit hitable hit [Sphere ex_near; Sphere ex_wide]
                  ex_ray 0 10 hit_record_uninit))
  <> mat_ptr (snd (hitable_list_hit hitable hit [Sphere ex_wide; Sphere ex_near]
                     ex_ray 0 10 hit_record_uninit)).
Proof.
  split; [lra |]. split; [apply perm_swap |].
  rewrite ex_near_wide_hit, ex_wide_near_hit. simpl. discriminate.
Qed.

(** With the tied spheres in the order near, wide, the record of the wide
    sphere is not the one [first_least] allows. *)
Example ex_tie_goes_to_first :
  ~ first_least [Sphere ex_near; Sphere ex_wide] ex_ray 0 10
                (sphere_record ex_wide ex_ray 1).
Proof.
  intros (before & o & after & Heq & (rec0 & Hh) & Hbefore).
  assert (Hnear : forall rec, hit (Sphere ex_near) ex_ray 0 10 rec
                              = (true, sphere_record ex_near ex_ray 1))
    by (intros rec; apply ex_near_hit).
  destruct before as [| o1 before].
  - simpl in Heq. injection Heq as <- _.
    rewrite Hnear in Hh.
    apply (f_equal (fun res => mat_ptr (snd res))) in Hh. discriminate.
  - simpl in Heq. injection Heq as <- _.
    specialize (Hbefore (Sphere ex_near) hit_record_uninit _
                        (or_introl eq_refl) (Hnear _)).
    simpl in Hbefore. lra.
Qed.

(** ** Geometry of an accepted hit *)

(** Either candidate of [sphere::hit] solves [a t^2 + 2 b t + c = 0]. *)
Lemma quadratic_root (a b c e x : R) :
  a <> 0 -> e * e = b * b - a * c -> x = (- b + e) / a ->
  a * x * x + 2 * b * x + c = 0.
Proof.
  intros Ha He ->.
  replace (a * ((- b + e) / a) * ((- b + e) / a) + 2 * b * ((- b + e) / a) + c)
    with ((e * e - (b * b - a * c)) / a) by (field; exact Ha).
  rewrite He. field. exact Ha.
Qed.

Lemma sphere_root_on_surface (s : sphere) (r : ray) (temp : R) :
  0 < sphere_discriminant s r ->
  temp = sphere_root1 s r \/ temp = sphere_root2 s r ->
  Vec3.squared_length (Ray.at_ r temp - center s)%v3 = radius s * radius s.
Proof.
  intros Hd Hroot.
  pose proof (sphere_a_pos s r Hd) as Ha.
  pose proof (sqrt_def (sphere_discriminant s r) (Rlt_le _ _ Hd)) as Hs.
  assert (Hq : sphere_a r * temp * temp + 2 * sphere_b s r * temp
               + sphere_c s r = 0).
  { destruct Hroot as [-> | ->].
    - apply (quadratic_root _ _ _ (- sqrt (sphere_discriminant s r)));
        [lra | | reflexivity].
      unfold sphere_discriminant in *. lra.
    - apply (quadratic_root _ _ _ (sqrt (sphere_discriminant s r)));
        [lra | | reflexivity].
      unfold sphere_discriminant in *. lra. }
  replace (Vec3.squared_length (Ray.at_ r temp - center s)%v3)
    with (sphere_a r * temp * temp + 2 * sphere_b s r * temp
          + sphere_c s r + radius s * radius s).
  - rewrite Hq. ring.
  - unfold sphere_a, sphere_b, sphere_c, sphere_oc, Vec3.squared_length,
      Vec3.dot, Ray.at_, Ray.origin, Ray.direction, Vec3.sub, Vec3.add,
      Vec3.scale_l.
    simpl. ring.
Qed.

(** C6.  For every sphere of non-zero radius and every ray of non-zero
    direction, whenever [sphere::hit] returns true the reported normal has
    length 1 and the reported point lies at distance |radius| from the
    centre of the sphere. *)
Theorem sphere_hit_on_surface (s : sphere) (r : ray) (t_min t_max : R)
    (rec h : hit_record) :
  radius s <> 0 ->
  Ray.direction r <> Vec3.zero ->
  sphere_hit s r t_min t_max rec = (true, h) ->
  Vec3.length (normal h) = 1 /\
  Vec3.length (p h - center s)%v3 = Rabs (radius s) /\
  normal h = ((p h - center s) :/ radius s)%v3.
Proof.
  intros Hr _ H. apply sphere_hit_inv in H.
  destruct H as (temp & Hd & Hroot & _ & ->). simpl.
  pose proof (sphere_root_on_surface s r temp Hd Hroot) as Hsurf.
  split; [| split; [| reflexivity]].
  - apply length_of_squared; [lra |].
    rewrite squared_length_div by exact Hr. rewrite Hsurf. field. exact Hr.
  - unfold Vec3.length. rewrite Hsurf. apply sqrt_Rsqr_abs.
Qed.

Lemma ex_ray_direction : Ray.direction ex_ray <> Vec3.zero.
Proof. unfold ex_ray, Vec3.zero. simpl. intros [= H]. lra. Qed.

Lemma sphere_hit_on_surface_witness :
  Vec3.length (normal (sphere_record ex_near ex_ray 1)) = 1 /\
  Vec3.length (p (sphere_record ex_near ex_ray 1) - center ex_near)%v3
  = Rabs (radius ex_near) /\
  normal (sphere_record ex_near ex_ray 1)
  = ((p (sphere_record ex_near ex_ray 1) - center ex_near) :/ radius ex_near)%v3.
Proof.
  apply (sphere_hit_on_surface ex_near ex_ray 0 10 hit_record_uninit).
  - simpl. lra.
  - exact ex_ray_direction.
  - apply ex_near_hit.
Defined.

(** ** Reflection *)

Lemma reflect_dot (v n : vec3) :
  Vec3.squared_length n = 1 ->
  Vec3.dot (Metal.reflect v n) n = - Vec3.dot v n.
Proof.
  intros Hn.
  replace (Vec3.dot (Metal.reflect v n) n)
    with (Vec3.dot v n * (1 - 2 * Vec3.squared_length n)).
  - rewrite Hn. ring.
  - unfold Metal.reflect, Vec3.dot, Vec3.squared_length, Vec3.sub, Vec3.scale_l.
    simpl. ring.
Qed.

(** C9.  For every vector [v] and every normal [n] of length 1, reflecting
    twice about [n] gives [v] back: [reflect (reflect v n) n = v]. *)
Theorem reflect_twice (v n : vec3) :
  Vec3.length n = 1 ->
  Metal.reflect (Metal.reflect v n) n = v.
Proof.
  intros Hn. apply length_unit_squared in Hn.
  pose proof (reflect_dot v n Hn) as Hdot.
  unfold Metal.reflect at 1.
  rewrite Hdot.
  apply vec3_eq;
    unfold Metal.reflect, Vec3.sub, Vec3.scale_l; simpl; ring.
Qed.

Lemma reflect_twice_witness :
  Metal.reflect (Metal.reflect (mkvec3 1 (-1) 0) (mkvec3 0 1 0)) (mkvec3 0 1 0)
  = mkvec3 1 (-1) 0.
Proof.
  apply (reflect_twice (mkvec3 1 (-1) 0) (mkvec3 0 1 0)).
  unfold Vec3.length, Vec3.squared_length. simpl.
  replace (0 * 0 + 1 * 1 + 0 * 0) with 1 by ring. exact sqrt_1.
Defined.

(** ** The depth cut-off of [color] *)

(** C2.  For every scene and every ray, [color] called with a depth
    strictly greater than 50 returns exactly the colour (0,0,0), whatever
    the fuel and whatever the ray would hit; no random value is drawn. *)
Theorem color_depth_cutoff (fuel : nat) (r : ray) (world : hitable)
    (depth : Z) (st : rng) :
  (depth > 50)%Z ->
  color fuel r world depth st = Ok (mkvec3 0 0 0, st).
Proof.
  intros Hd. apply Z.gt_lt in Hd. apply Z.gtb_lt in Hd.
  destruct fuel; simpl; rewrite Hd; reflexivity.
Qed.

(** At depth 50 the cut-off does not apply yet: in an empty scene the ray
    gets the background. *)
Example color_depth_50_empty :
  color 1 ex_ray (HitableList []) 50 ex_rng = Ok (background ex_ray, ex_rng).
Proof. reflexivity. Qed.

(** The background of a ray pointing straight up is the sky colour, and of
    a ray pointing straight down it is white. *)
Example background_up :
  background (mkray Vec3.zero (mkvec3 0 1 0)) = mkvec3 0.5 0.7 1.0.
Proof.
  unfold background, Vec3.unit_vector, Ray.direction. cbv zeta. cbn [dir].
  rewrite (length_of_squared (mkvec3 0 1 0) 1)
    by (try lra; unfold Vec3.squared_length; simpl; ring).
  apply vec3_eq; unfold Vec3.y, Vec3.add, Vec3.scale_l, Vec3.div; simpl; lra.
Qed.

Example background_down :
  background (mkray Vec3.zero (mkvec3 0 (-1) 0)) = mkvec3 1 1 1.
Proof.
  unfold background, Vec3.unit_vector, Ray.direction. cbv zeta. cbn [dir].
  rewrite (length_of_squared (mkvec3 0 (-1) 0) 1)
    by (try lra; unfold Vec3.squared_length; simpl; ring).
  apply vec3_eq; unfold Vec3.y, Vec3.add, Vec3.scale_l, Vec3.div; simpl; lra.
Qed.

Lemma color_depth_cutoff_witness :
  color 0 ex_ray (HitableList [Sphere ex_near]) 51 ex_rng
  = Ok (mkvec3 0 0 0, ex_rng).
Proof.
  apply (color_depth_cutoff 0 ex_ray (HitableList [Sphere ex_near]) 51 ex_rng).
  reflexivity.
Defined.

(** ** The camera *)

Lemma cross_dot_left (a b : vec3) : Vec3.dot (Vec3.cross a b) a = 0.
Proof. unfold Vec3.dot, Vec3.cross. simpl. ring. Qed.

Lemma cross_dot_right (a b : vec3) : Vec3.dot (Vec3.cross a b) b = 0.
Proof. unfold Vec3.dot, Vec3.cross. simpl. ring. Qed.

Lemma dot_comm (a b : vec3) : Vec3.dot a b = Vec3.dot b a.
Proof. unfold Vec3.dot. ring. Qed.

(** Lagrange's identity. *)
Lemma cross_squared_length (a b : vec3) :
  Vec3.dot (Vec3.cross a b) (Vec3.cross a b) =
  Vec3.dot a a * Vec3.dot b b - Vec3.dot a b * Vec3.dot a b.
Proof. unfold Vec3.dot, Vec3.cross. simpl. ring. Qed.

Lemma dot_unit_vector_l (a b : vec3) :
  Vec3.dot (Vec3.unit_vector a) b = Vec3.dot a b / Vec3.length a.
Proof.
  unfold Vec3.unit_vector, Vec3.dot, Vec3.div, Rdiv. simpl. ring.
Qed.

Lemma dot_unit_vector_self (a : vec3) :
  a <> Vec3.zero -> Vec3.dot (Vec3.unit_vector a) (Vec3.unit_vector a) = 1.
Proof.
  intros Ha. rewrite <- squared_length_dot.
  apply length_unit_squared, length_unit_vector. exact Ha.
Qed.

(** The basis the constructor builds is orthonormal. *)
Lemma camera_basis_orthonormal (lookfrom lookat vup : vec3) :
  camera_inputs_ok lookfrom lookat vup ->
  let w := Camera.basis_w lookfrom lookat in
  let u := Camera.basis_u lookfrom lookat vup in
  let v := Camera.basis_v lookfrom lookat vup in
  Vec3.dot w w = 1 /\ Vec3.dot u u = 1 /\ Vec3.dot v v = 1 /\
  Vec3.dot u w = 0 /\ Vec3.dot v w = 0 /\ Vec3.dot u v = 0.
Proof.
  intros [Hw Hu]. cbv zeta.
  assert (Eww : Vec3.dot (Camera.basis_w lookfrom lookat)
                         (Camera.basis_w lookfrom lookat) = 1)
    by (apply dot_unit_vector_self; exact Hw).
  assert (Euu : Vec3.dot (Camera.basis_u lookfrom lookat vup)
                         (Camera.basis_u lookfrom lookat vup) = 1)
    by (apply dot_unit_vector_self; exact Hu).
  assert (Euw : Vec3.dot (Camera.basis_u lookfrom lookat vup)
                         (Camera.basis_w lookfrom lookat) = 0).
  { unfold Camera.basis_u. rewrite dot_unit_vector_l, cross_dot_right.
    unfold Rdiv. ring. }
  repeat split; try assumption.
  - unfold Camera.basis_v. rewrite cross_squared_length, Eww, Euu.
    rewrite (dot_comm (Camera.basis_w lookfrom lookat)), Euw. ring.
  - unfold Camera.basis_v. apply cross_dot_left.
  - rewrite dot_comm. unfold Camera.basis_v. apply cross_dot_right.
Qed.

(** The direction of a camera ray, squared, for any three basis vectors. *)
Lemma get_ray_direction_expand (o u v w : vec3) (hw hh s t0 : R) :
  let cam := mkcamera o ((2 * hw) *: u)%v3 ((2 * hh) *: v)%v3
                      (o - hw *: u - hh *: v - w)%v3 in
  let A := (2 * s - 1) * hw in
  let B := (2 * t0 - 1) * hh in
  Vec3.squared_length (Ray.direction (Camera.get_ray cam s t0)) =
  A * A * Vec3.dot u u + B * B * Vec3.dot v v + Vec3.dot w w
  + 2 * A * B * Vec3.dot u v - 2 * A * Vec3.dot u w - 2 * B * Vec3.dot v w.
Proof.
  unfold Camera.get_ray, Ray.direction, Vec3.squared_length, Vec3.dot,
    Vec3.add, Vec3.sub, Vec3.scale_l.
  simpl. ring.
Qed.

(** The squared length of the direction [get_ray] returns. *)
Lemma get_ray_squared_length (lookfrom lookat vup : vec3) (vfov aspect s t0 : R) :
  camera_inputs_ok lookfrom lookat vup ->
  Vec3.squared_length
    (Ray.direction
       (Camera.get_ray (Camera.new lookfrom lookat vup vfov aspect) s t0)) =
  1 + ((2 * s - 1) * Camera.half_width vfov aspect)
      * ((2 * s - 1) * Camera.half_width vfov aspect)
    + ((2 * t0 - 1) * Camera.half_height vfov)
      * ((2 * t0 - 1) * Camera.half_height vfov).
Proof.
  intros Hok.
  destruct (camera_basis_orthonormal lookfrom lookat vup Hok)
    as (Eww & Euu & Evv & Euw & Evw & Euv).
  unfold Camera.new. cbv zeta.
  rewrite get_ray_direction_expand. cbv zeta.
  rewrite Eww, Euu, Evv, Euw, Evw, Euv. ring.
Qed.

(** C3, as the code has it.  For every camera built from non-degenerate
    inputs and every [s], [t] in [0,1], the direction of the ray
    [camera::get_ray] returns is not normalised: its squared length is
    1 + ((2s-1) half_width)^2 + ((2t-1) half_height)^2, so its length is at
    least 1, and it is 1 exactly when both offsets from the centre of the
    viewport vanish. *)
Theorem get_ray_direction_length (lookfrom lookat vup : vec3)
    (vfov aspect s t0 : R) :
  camera_inputs_ok lookfrom lookat vup ->
  0 <= s <= 1 -> 0 <= t0 <= 1 ->
  let d := Ray.direction
             (Camera.get_ray (Camera.new lookfrom lookat vup vfov aspect) s t0) in
  let A := (2 * s - 1) * Camera.half_width vfov aspect in
  let B := (2 * t0 - 1) * Camera.half_height vfov in
  Vec3.squared_length d = 1 + A * A + B * B /\
  1 <= Vec3.length d /\
  (Vec3.length d = 1 <-> A = 0 /\ B = 0).
Proof.
  intros Hok _ _. cbv zeta.
  pose proof (get_ray_squared_length lookfrom lookat vup vfov aspect s t0 Hok)
    as Hsq.
  pose proof (Rle_0_sqr ((2 * s - 1) * Camera.half_width vfov aspect)) as HA.
  pose proof (Rle_0_sqr ((2 * t0 - 1) * Camera.half_height vfov)) as HB.
  unfold Rsqr in HA, HB.
  split; [exact Hsq | ]. split.
  - unfold Vec3.length. rewrite <- sqrt_1 at 1. apply sqrt_le_1_alt.
    rewrite Hsq. lra.
  - split.
    + intros H1. apply length_unit_squared in H1. rewrite Hsq in H1.
      split; apply Rsqr_0_uniq; unfold Rsqr; lra.
    + intros [EA EB]. unfold Vec3.length. rewrite Hsq, EA, EB.
      replace (1 + 0 * 0 + 0 * 0) with 1 by ring. exact sqrt_1.
Qed.

Lemma ex_camera_back_length : Vec3.length (ex_lookfrom - ex_lookat)%v3 = 1.
Proof.
  apply length_of_squared; [lra |].
  unfold Vec3.squared_length. simpl. ring.
Qed.

Lemma ex_camera_inputs_ok : camera_inputs_ok ex_lookfrom ex_lookat ex_vup.
Proof.
  split.
  - intros H. apply (f_equal e2) in H. simpl in H. lra.
  - intros H. apply (f_equal e0) in H. revert H.
    unfold Camera.basis_w, Vec3.unit_vector. rewrite ex_camera_back_length.
    simpl. lra.
Qed.

Lemma ex_camera_half_height : Camera.half_height 90 = 1.
Proof.
  unfold Camera.half_height.
  replace (90 * PI / 180 / 2) with (PI / 4) by field.
  exact tan_PI4.
Qed.

Lemma get_ray_direction_length_witness :
  let d := Ray.direction (Camera.get_ray ex_camera (1 / 2) (1 / 2)) in
  let A := (2 * (1 / 2) - 1) * Camera.half_width 90 1 in
  let B := (2 * (1 / 2) - 1) * Camera.half_height 90 in
  Vec3.squared_length d = 1 + A * A + B * B /\
  1 <= Vec3.length d /\
  (Vec3.length d = 1 <-> A = 0 /\ B = 0).
Proof.
  apply (get_ray_direction_length ex_lookfrom ex_lookat ex_vup 90 1 (1 / 2) (1 / 2)).
  - exact ex_camera_inputs_ok.
  - lra.
  - lra.
Defined.

(** C3 as stated fails: the ray through the lower left corner of the
    viewport of [ex_camera] has a direction of length sqrt 3. *)
Lemma get_ray_direction_not_unit :
  camera_inputs_ok ex_lookfrom ex_lookat ex_vup /\
  0 <= 0 <= 1 /\
  Vec3.squared_length (Ray.direction (Camera.get_ray ex_camera 0 0)) = 3 /\
  Vec3.length (Ray.direction (Camera.get_ray ex_camera 0 0)) <> 1.
Proof.
  assert (Hsq : Vec3.squared_length
                  (Ray.direction (Camera.get_ray ex_camera 0 0)) = 3).
  { unfold ex_camera.
    rewrite (get_ray_squared_length _ _ _ _ _ _ _ ex_camera_inputs_ok).
    unfold Camera.half_width. rewrite ex_camera_half_height. ring. }
  split; [exact ex_camera_inputs_ok | ]. split; [lra |]. split; [exact Hsq | ].
  intros H1. apply length_unit_squared in H1. rewrite Hsq in H1. lra.
Qed.

(** ** Random numbers *)

Lemma ex_rng_wf : rng_wf ex_rng.
Proof.
  split; intros n; simpl.
  - destruct n as [| [| [| n]]]; simpl; lra.
  - unfold RAND_MAX. lia.
Qed.

(** The first call constructs the distribution from its own bounds. *)
Lemma random_float_first (min max : R) (st : rng) :
  distribution st = None ->
  fst (random_float min max st)
  = generator st (generator_pos st) * (max - min) + min /\
  distribution (snd (random_float min max st)) = Some (min, max).
Proof. intros H. unfold random_float. rewrite H. simpl. auto. Qed.

(** Every later call draws from the distribution of the first call and
    ignores its own bounds. *)
Lemma random_float_later (a b min max : R) (st : rng) :
  distribution st = Some (a, b) ->
  fst (random_float min max st)
  = generator st (generator_pos st) * (b - a) + a /\
  distribution (snd (random_float min max st)) = Some (a, b).
Proof. intros H. unfold random_float. rewrite H. simpl. auto. Qed.

Lemma random_float_wf (min max : R) (st : rng) :
  rng_wf st -> rng_wf (snd (random_float min max st)).
Proof. intros H. exact H. Qed.

(** On a fresh state the value lies within the bounds of the call. *)
Lemma random_float_first_in_range (min max : R) (st : rng) :
  rng_wf st -> distribution st = None -> min <= max ->
  min <= fst (random_float min max st) <= max.
Proof.
  intros [Hg _] Hd Hmm.
  destruct (random_float_first min max st Hd) as [-> _].
  specialize (Hg (generator_pos st)). nra.
Qed.

(** Once [random_float(0,1)] has been called, the candidate points of
    [random_in_unit_sphere], drawn as [random_vec3(-1,1)], have no negative
    component. *)
Lemma random_vec3_after_unit_call (min max : R) (st : rng) :
  rng_wf st -> distribution st = Some (0, 1) ->
  let v := fst (random_vec3 min max st) in
  0 <= e0 v < 1 /\ 0 <= e1 v < 1 /\ 0 <= e2 v < 1.
Proof.
  intros [Hg _] Hd. unfold random_vec3, random_float. rewrite Hd. simpl.
  pose proof (Hg (generator_pos st)).
  pose proof (Hg (S (generator_pos st))).
  pose proof (Hg (S (S (generator_pos st)))).
  repeat split; lra.
Qed.

(** C4, at the failing input.  The three calls [randomScene] makes first:
    [random_float()] and then [random_float(0, 0.9)] twice.  The third call
    returns 3890346734 / 2^32 (about 0.9058), outside [0, 0.9], because the
    distribution still has the bounds (0, 1) of the first call. *)
Theorem random_float_out_of_range :
  let st1 := snd (random_float 0 1 ex_rng) in
  let st2 := snd (random_float 0 0.9 st1) in
  let x3 := fst (random_float 0 0.9 st2) in
  distribution st2 = Some (0, 1) /\
  x3 = 3890346734 / 4294967296 /\
  0 <= 0.9 /\
  ~ (0 <= x3 <= 0.9).
Proof.
  cbv zeta. unfold random_float, ex_rng. simpl.
  split; [reflexivity |]. split; [lra |]. split; lra.
Qed.

(** ** Dielectric scattering *)

(** What [dielectric::scatter] does when [refract] fails. *)
Lemma dielectric_scatter_no_refraction (ref_idx : R) (r_in : ray)
    (rec : hit_record) (st : rng) :
  let '(outward_normal, ni_over_nt, _) := Dielectric.orient ref_idx r_in rec in
  Dielectric.refract_discriminant (Ray.direction r_in) outward_normal ni_over_nt
    <= 0 ->
  Dielectric.scatter ref_idx r_in rec st =
  Ok (true, mkvec3 1 1 1,
      mkray (p rec)
            (if Rltb (IZR (fst (rand st)) / IZR RAND_MAX) 1
             then Dielectric.reflect
                    (Vec3.unit_vector (Ray.direction r_in)) (normal rec)
             else Vec3.zero),
      snd (rand st)).
Proof.
  unfold Dielectric.scatter.
  destruct (Dielectric.orient ref_idx r_in rec) as [[outward_normal ni_over_nt] cosine].
  unfold Dielectric.refract_discriminant, Dielectric.refract. cbv zeta.
  intros Hd. rewrite Rgtb_false by exact Hd. simpl.
  destruct (Rltb _ 1); reflexivity.
Qed.

(** Total internal reflection with [rand() < RAND_MAX]: the scattered ray is
    the mirror reflection. *)
Lemma dielectric_scatter_reflects (ref_idx : R) (r_in : ray)
    (rec : hit_record) (st : rng) :
  let '(outward_normal, ni_over_nt, _) := Dielectric.orient ref_idx r_in rec in
  Dielectric.refract_discriminant (Ray.direction r_in) outward_normal ni_over_nt
    < 0 ->
  (0 <= fst (rand st) < RAND_MAX)%Z ->
  Dielectric.scatter ref_idx r_in rec st =
  Ok (true, mkvec3 1 1 1,
      mkray (p rec)
            (Dielectric.reflect
               (Vec3.unit_vector (Ray.direction r_in)) (normal rec)),
      snd (rand st)).
Proof.
  pose proof (dielectric_scatter_no_refraction ref_idx r_in rec st) as H.
  destruct (Dielectric.orient ref_idx r_in rec) as [[outward_normal ni_over_nt] cosine].
  intros Hd Hx. rewrite H by lra.
  rewrite Rltb_true; [reflexivity |].
  assert (HM : 0 < IZR RAND_MAX) by (apply IZR_lt; reflexivity).
  apply (Rmult_lt_reg_r (IZR RAND_MAX)); [exact HM |].
  unfold Rdiv. rewrite Rmult_assoc, Rinv_l by lra.
  rewrite Rmult_1_r, Rmult_1_l. apply IZR_lt. lia.
Qed.

Lemma ex_glass_ray_length : Vec3.length (Ray.direction ex_glass_ray) = 1.
Proof.
  apply length_of_squared; [lra |].
  unfold Vec3.squared_length. simpl. ring.
Qed.

Lemma ex_glass_orient :
  Dielectric.orient 1.5 ex_glass_ray ex_glass_rec
  = ((- normal ex_glass_rec)%v3, 1.5,
     1.5 * Vec3.dot (Ray.direction ex_glass_ray) (normal ex_glass_rec)
       / Vec3.length (Ray.direction ex_glass_ray)).
Proof.
  unfold Dielectric.orient. rewrite Rgtb_true; [reflexivity |].
  unfold Vec3.dot. simpl. lra.
Qed.

Lemma ex_glass_discriminant :
  Dielectric.refract_discriminant (Ray.direction ex_glass_ray)
    (- normal ex_glass_rec)%v3 1.5 = - 0.44.
Proof.
  unfold Dielectric.refract_discriminant, Vec3.unit_vector.
  rewrite ex_glass_ray_length. unfold Vec3.dot, Vec3.div, Vec3.neg. simpl.
  lra.
Qed.

(** The record of the example is the one [sphere::hit] writes for the
    example ray and sphere, over the range [color] asks for. *)
Lemma ex_glass_hit (rec : hit_record) :
  fst (sphere_hit ex_glass ex_glass_ray 0.0001 FLT_MAX rec) = true /\
  t (snd (sphere_hit ex_glass ex_glass_ray 0.0001 FLT_MAX rec)) = t ex_glass_rec /\
  p (snd (sphere_hit ex_glass ex_glass_ray 0.0001 FLT_MAX rec)) = p ex_glass_rec /\
  normal (snd (sphere_hit ex_glass ex_glass_ray 0.0001 FLT_MAX rec))
  = normal ex_glass_rec /\
  mat_ptr (snd (sphere_hit ex_glass ex_glass_ray 0.0001 FLT_MAX rec))
  = mat_ptr ex_glass_rec.
Proof.
  assert (E : sphere_discriminant ex_glass ex_glass_ray = 0.6 * 0.6)
    by (unfold_sphere; lra).
  destruct (sphere_roots_eval ex_glass ex_glass_ray 0.6 ltac:(lra) E) as [E1 E2].
  assert (R1 : sphere_root1 ex_glass ex_glass_ray = - 0.2)
    by (rewrite E1; unfold_sphere; lra).
  assert (R2 : sphere_root2 ex_glass ex_glass_ray = 1)
    by (rewrite E2; unfold_sphere; lra).
  assert (HF : 1 < FLT_MAX) by (unfold FLT_MAX; apply IZR_lt; reflexivity).
  rewrite sphere_hit_unfold, E, R1, R2.
  rewrite Rgtb_true by lra. decide_range. simpl.
  repeat split; try reflexivity;
    apply vec3_eq; unfold Ray.at_, Vec3.add, Vec3.sub, Vec3.scale_l, Vec3.div;
    simpl; lra.
Qed.

(** C7, at the failing input.  The example ray meets the glass surface
    beyond the critical angle (the discriminant of [refract] is -0.44) and
    [rand()] returns [RAND_MAX]: the scattered direction is the
    never-assigned [refracted], (0,0,0), and not the mirror reflection
    (0.28, -0.96, 0). *)
Theorem dielectric_scatter_rand_max :
  Dielectric.refract_discriminant (Ray.direction ex_glass_ray)
    (- normal ex_glass_rec)%v3 1.5 < 0 /\
  Dielectric.scatter 1.5 ex_glass_ray ex_glass_rec ex_rng
  = Ok (true, mkvec3 1 1 1, mkray (p ex_glass_rec) Vec3.zero,
        snd (rand ex_rng)) /\
  Dielectric.reflect (Vec3.unit_vector (Ray.direction ex_glass_ray))
                     (normal ex_glass_rec)
  = mkvec3 0.28 (-0.96) 0 /\
  Dielectric.reflect (Vec3.unit_vector (Ray.direction ex_glass_ray))
                     (normal ex_glass_rec)
  <> Vec3.zero.
Proof.
  assert (Hrefl : Dielectric.reflect
                    (Vec3.unit_vector (Ray.direction ex_glass_ray))
                    (normal ex_glass_rec) = mkvec3 0.28 (-0.96) 0).
  { unfold Dielectric.reflect, Vec3.unit_vector.
    rewrite ex_glass_ray_length.
    apply vec3_eq; unfold Vec3.dot, Vec3.sub, Vec3.scale_l, Vec3.div;
      simpl; lra. }
  split; [rewrite ex_glass_discriminant; lra |]. split; [| split].
  - pose proof (dielectric_scatter_no_refraction 1.5 ex_glass_ray ex_glass_rec
                  ex_rng) as H.
    rewrite ex_glass_orient in H. rewrite H.
    + rewrite Rltb_false; [reflexivity |].
      simpl. unfold Rdiv. rewrite Rinv_r; [lra |].
      apply not_0_IZR. discriminate.
    + rewrite ex_glass_discriminant. lra.
  - exact Hrefl.
  - rewrite Hrefl. intros H. apply (f_equal e0) in H. simpl in H. lra.
Qed.


(** * Further properties of the code *)

(** ** [sphere::hit] against the geometry *)

Lemma on_sphere_quadratic (s : sphere) (r : ray) (x : R) :
  on_sphere s r x <->
  sphere_a r * x * x + 2 * sphere_b s r * x + sphere_c s r = 0.
Proof.
  unfold on_sphere.
  replace (Vec3.squared_length (Ray.at_ r x - center s)%v3)
    with (sphere_a r * x * x + 2 * sphere_b s r * x
          + sphere_c s r + radius s * radius s).
  - split; intros H; lra.
  - unfold sphere_a, sphere_b, sphere_c, sphere_oc, Vec3.squared_length,
      Vec3.dot, Ray.at_, Ray.origin, Ray.direction, Vec3.sub, Vec3.add,
      Vec3.scale_l.
    simpl. ring.
Qed.

(** Completing the square: where the ray meets the sphere,
    [(a x + b)^2] is the discriminant. *)
Lemma on_sphere_square (s : sphere) (r : ray) (x : R) :
  on_sphere s r x ->
  (sphere_a r * x + sphere_b s r) * (sphere_a r * x + sphere_b s r)
  = sphere_discriminant s r.
Proof.
  intros H. apply on_sphere_quadratic in H. unfold sphere_discriminant.
  replace ((sphere_a r * x + sphere_b s r) * (sphere_a r * x + sphere_b s r))
    with (sphere_a r * (sphere_a r * x * x + 2 * sphere_b s r * x
                        + sphere_c s r)
          + (sphere_b s r * sphere_b s r - sphere_a r * sphere_c s r)) by ring.
  rewrite H. ring.
Qed.

Lemma on_sphere_roots (s : sphere) (r : ray) (x : R) :
  0 < sphere_discriminant s r -> on_sphere s r x ->
  x = sphere_root1 s r \/ x = sphere_root2 s r.
Proof.
  intros Hd Hx.
  pose proof (sphere_a_pos s r Hd) as Ha.
  pose proof (on_sphere_square s r x Hx) as Hsq.
  pose proof (sqrt_def _ (Rlt_le _ _ Hd)) as Hs.
  set (sd := sqrt (sphere_discriminant s r)) in *.
  assert (Hfac : (sphere_a r * x + sphere_b s r - sd)
                 * (sphere_a r * x + sphere_b s r + sd) = 0).
  { replace ((sphere_a r * x + sphere_b s r - sd)
             * (sphere_a r * x + sphere_b s r + sd))
      with ((sphere_a r * x + sphere_b s r) * (sphere_a r * x + sphere_b s r)
            - sd * sd) by ring.
    rewrite Hsq, Hs. ring. }
  apply Rmult_integral in Hfac. destruct Hfac as [H | H].
  - right. unfold sphere_root2. fold sd.
    apply (Rmult_eq_reg_l (sphere_a r)); [| lra].
    replace (sphere_a r * ((- sphere_b s r + sd) / sphere_a r))
      with (- sphere_b s r + sd) by (field; lra).
    lra.
  - left. unfold sphere_root1. fold sd.
    apply (Rmult_eq_reg_l (sphere_a r)); [| lra].
    replace (sphere_a r * ((- sphere_b s r - sd) / sphere_a r))
      with (- sphere_b s r - sd) by (field; lra).
    lra.
Qed.

(** Which of the two candidates [sphere::hit] reports. *)
Lemma sphere_hit_choice (s : sphere) (r : ray) (t_min t_max : R)
    (rec h : hit_record) :
  sphere_hit s r t_min t_max rec = (true, h) ->
  0 < sphere_discriminant s r /\
  ((h = sphere_record s r (sphere_root1 s r) /\
    t_min < sphere_root1 s r < t_max) \/
   (h = sphere_record s r (sphere_root2 s r) /\
    t_min < sphere_root2 s r < t_max /\
    (sphere_root1 s r <= t_min \/ t_max <= sphere_root1 s r))).
Proof.
  rewrite sphere_hit_unfold.
  destruct (Rgtb_spec (sphere_discriminant s r) 0) as [Hd | Hd]; [| discriminate].
  destruct (in_range (sphere_root1 s r) t_min t_max) eqn:E1;
    [| destruct (in_range (sphere_root2 s r) t_min t_max) eqn:E2; [| discriminate]];
    intros H; injection H as <-; (split; [lra |]).
  - left. apply in_range_iff in E1. auto.
  - right. apply in_range_iff in E2. apply in_range_false in E1. auto.
Qed.

(** X1.  When [sphere::hit] returns true, the reported [t] is a parameter
    at which the ray is on the surface of the sphere, and it is the first
    one in the range: no parameter of the open range at which the ray is on
    the surface is smaller. *)
Theorem sphere_hit_first_crossing (s : sphere) (r : ray) (t_min t_max : R)
    (rec h : hit_record) :
  sphere_hit s r t_min t_max rec = (true, h) ->
  on_sphere s r (t h) /\
  (forall x, t_min < x < t_max -> on_sphere s r x -> t h <= x).
Proof.
  intros H. apply sphere_hit_choice in H. destruct H as [Hd Hc].
  pose proof (sphere_roots_ordered s r Hd) as Hord.
  destruct Hc as [[-> Hr] | (-> & Hr & Hout)]; simpl; split.
  - apply sphere_root_on_surface; auto.
  - intros x Hx Hon. destruct (on_sphere_roots s r x Hd Hon) as [-> | ->]; lra.
  - apply sphere_root_on_surface; auto.
  - intros x Hx Hon. destruct (on_sphere_roots s r x Hd Hon) as [-> | ->]; lra.
Qed.

Lemma sphere_hit_first_crossing_witness :
  on_sphere ex_near ex_ray (t (sphere_record ex_near ex_ray 1)) /\
  (forall x, 0 < x < 10 -> on_sphere ex_near ex_ray x ->
             t (sphere_record ex_near ex_ray 1) <= x).
Proof.
  apply (sphere_hit_first_crossing ex_near ex_ray 0 10 hit_record_uninit).
  apply ex_near_hit.
Defined.

(** ** Every [hit], of a sphere or of a list *)

(** X3.  Whenever a [hit] method returns true, of a sphere or of a list
    nested to any depth, the reported [t] lies strictly inside the range
    asked for and the reported point is the ray evaluated at [t]. *)
Theorem hit_reports_point_on_ray (o : hitable) (r : ray) (t_min t_max : R)
    (rec h : hit_record) :
  hit o r t_min t_max rec = (true, h) ->
  t_min < t h < t_max /\ p h = Ray.at_ r (t h).
Proof.
  intros H. apply hit_true_query in H. split.
  - eapply (reg_range _ (hit_regular o)); exact H.
  - eapply (reg_point _ (hit_regular o)); exact H.
Qed.

Lemma hit_reports_point_on_ray_witness :
  0 < t (sphere_record ex_near ex_ray 1) < 10 /\
  p (sphere_record ex_near ex_ray 1)
  = Ray.at_ ex_ray (t (sphere_record ex_near ex_ray 1)).
Proof.
  apply (hit_reports_point_on_ray
           (HitableList [Sphere ex_far; Sphere ex_near]) ex_ray 0 10
           hit_record_uninit).
  apply ex_far_near_hit.
Defined.

(** X28.  A hit test reads nothing from the record it is given: started
    from any other record it returns the same boolean and, on a hit, the
    same record; on a miss it hands back the record it was given.  The
    uninitialised record of [color] and of [hitable_list::hit] never reaches
    a result. *)
Theorem hit_ignores_caller_record (o : hitable) (r : ray) (t_min t_max : R)
    (rec rec0 : hit_record) :
  hit o r t_min t_max rec0 =
  (if fst (hit o r t_min t_max rec)
   then hit o r t_min t_max rec
   else (false, rec0)).
Proof.
  rewrite !(reg_frame _ (hit_regular o)).
  destruct (query (hit o) r t_min t_max); reflexivity.
Qed.

(** X4.  Asked over an empty range ([t_max <= t_min]) every [hit] method
    returns false and leaves the caller's record alone. *)
Theorem hit_empty_range (o : hitable) (r : ray) (t_min t_max : R)
    (rec : hit_record) :
  t_max <= t_min ->
  hit o r t_min t_max rec = (false, rec).
Proof.
  intros Hle. rewrite (reg_frame _ (hit_regular o)).
  destruct (query (hit o) r t_min t_max) as [h |] eqn:E; [| reflexivity].
  apply (reg_range _ (hit_regular o)) in E. lra.
Qed.

Lemma hit_empty_range_witness :
  hit (Sphere ex_near) ex_ray 1 1 hit_record_uninit = (false, hit_record_uninit).
Proof.
  apply (hit_empty_range (Sphere ex_near) ex_ray 1 1 hit_record_uninit). lra.
Defined.

(** X5.  Lowering the upper bound of the range from [t_max] to [c] keeps
    the answer of any [hit] method when the reported [t] is below [c], and
    turns it into a miss otherwise. *)
Theorem hit_narrow (o : hitable) (r : ray) (t_min t_max c : R)
    (rec : hit_record) :
  c <= t_max ->
  hit o r t_min c rec =
  (if fst (hit o r t_min t_max rec)
      && Rltb (t (snd (hit o r t_min t_max rec))) c
   then hit o r t_min t_max rec
   else (false, rec)).
Proof.
  intros Hc. rewrite !(reg_frame _ (hit_regular o)).
  rewrite (reg_shrink _ (hit_regular o) r t_min t_max c Hc).
  destruct (query (hit o) r t_min t_max) as [h |]; simpl; [| reflexivity].
  destruct (Rltb (t h) c); reflexivity.
Qed.

Lemma hit_narrow_witness :
  hit (Sphere ex_near) ex_ray 0 2 hit_record_uninit =
  (if fst (hit (Sphere ex_near) ex_ray 0 10 hit_record_uninit)
      && Rltb (t (snd (hit (Sphere ex_near) ex_ray 0 10 hit_record_uninit))) 2
   then hit (Sphere ex_near) ex_ray 0 10 hit_record_uninit
   else (false, hit_record_uninit)).
Proof.
  apply (hit_narrow (Sphere ex_near) ex_ray 0 10 2 hit_record_uninit). lra.
Defined.

(** ** Lists of objects *)

Lemma nearest_cons (o : hitable) (rest : list hitable) (r : ray)
    (t_min c : R) :
  nearest hitable hit (o :: rest) r t_min c =
  match query (hit o) r t_min c with
  | Some h =>
      match nearest hitable hit rest r t_min (t h) with
      | Some h' => Some h'
      | None => Some h
      end
  | None => nearest hitable hit rest r t_min c
  end.
Proof. reflexivity. Qed.

Lemma nearest_app (l1 l2 : list hitable) (r : ray) (t_min c : R) :
  nearest hitable hit (l1 ++ l2) r t_min c =
  match nearest hitable hit l1 r t_min c with
  | Some h =>
      match nearest hitable hit l2 r t_min (t h) with
      | Some h' => Some h'
      | None => Some h
      end
  | None => nearest hitable hit l2 r t_min c
  end.
Proof.
  revert c. induction l1 as [| o rest IH]; intros c; simpl; [reflexivity |].
  destruct (query (hit o) r t_min c) as [h0 |]; [| apply IH].
  rewrite IH.
  destruct (nearest hitable hit rest r t_min (t h0)) as [h1 |].
  - destruct (nearest hitable hit l2 r t_min (t h1)); reflexivity.
  - destruct (nearest hitable hit l2 r t_min (t h0)); reflexivity.
Qed.

(** X6.  [add] then [hit]: the list with one more object answers as the
    list without it, followed by a test of the new object below the [t]
    found so far (below [t_max] when nothing was found). *)
Theorem hit_after_add (objects : list hitable) (object : hitable) (r : ray)
    (t_min t_max : R) (rec : hit_record) :
  hitable_list_hit hitable hit (HitableListOps.add objects object)
                   r t_min t_max rec =
  let '(h1, rec1) := hitable_list_hit hitable hit objects r t_min t_max rec in
  let '(h2, rec2) :=
    hit object r t_min (if h1 then t rec1 else t_max) rec1 in
  (h1 || h2, rec2).
Proof.
  unfold HitableListOps.add. rewrite !hitable_list_hit_nearest, nearest_app.
  simpl nearest.
  destruct (nearest hitable hit objects r t_min t_max) as [h |].
  - rewrite (reg_frame _ (hit_regular object)).
    destruct (query (hit object) r t_min (t h)); reflexivity.
  - rewrite (reg_frame _ (hit_regular object)).
    destruct (query (hit object) r t_min t_max); reflexivity.
Qed.

(** X7.  A list that holds one object, as [hitable_list(object)] builds
    it, answers every hit test exactly as the object itself; a cleared or
    default-constructed list misses every ray. *)
Theorem hit_single_and_empty (object : hitable) (objects : list hitable)
    (r : ray) (t_min t_max : R) (rec : hit_record) :
  hit (HitableList (HitableListOps.single object)) r t_min t_max rec
  = hit object r t_min t_max rec /\
  hit (HitableList (HitableListOps.clear objects)) r t_min t_max rec
  = (false, rec) /\
  hit (HitableList HitableListOps.empty) r t_min t_max rec = (false, rec).
Proof.
  split; [| split; reflexivity].
  change (hitable_list_hit hitable hit [object] r t_min t_max rec
          = hit object r t_min t_max rec).
  rewrite hitable_list_hit_nearest, nearest_cons.
  rewrite (reg_frame _ (hit_regular object)).
  destruct (query (hit object) r t_min t_max); reflexivity.
Qed.

(** X8.  Grouping the objects of a list into two sub-lists does not change
    any answer: the list of the two groups hits as the flat list. *)
Theorem hit_nested_groups (l1 l2 : list hitable) (r : ray) (t_min t_max : R)
    (rec : hit_record) :
  hit (HitableList [HitableList l1; HitableList l2]) r t_min t_max rec
  = hit (HitableList (l1 ++ l2)) r t_min t_max rec.
Proof.
  change (hitable_list_hit hitable hit [HitableList l1; HitableList l2]
            r t_min t_max rec
          = hitable_list_hit hitable hit (l1 ++ l2) r t_min t_max rec).
  rewrite !hitable_list_hit_nearest, nearest_app, nearest_cons.
  rewrite (list_query_nearest _ (all_regular _)).
  destruct (nearest hitable hit l1 r t_min t_max) as [h |].
  - rewrite nearest_cons, (list_query_nearest _ (all_regular _)).
    destruct (nearest hitable hit l2 r t_min (t h)); reflexivity.
  - rewrite nearest_cons, (list_query_nearest _ (all_regular _)).
    destruct (nearest hitable hit l2 r t_min t_max); reflexivity.
Qed.

(** ** Materials of the hits, and what [color] can return *)

Lemma all_mats_list (P : option material -> Prop) (objects : list hitable) :
  all_mats P (HitableList objects) <-> Forall (all_mats P) objects.
Proof.
  induction objects as [| o rest IH]; simpl.
  - split; [constructor | trivial].
  - split.
    + intros [Ho Hrest]. constructor; [exact Ho | apply IH; exact Hrest].
    + intros H. inversion H as [| ? ? Ho Hrest]; subst.
      split; [exact Ho | apply IH; exact Hrest].
Qed.

(** The material of a reported hit is the material of one of the spheres. *)
Lemma hit_mat (P : option material -> Prop) (o : hitable) :
  all_mats P o ->
  forall r t_min t_max h,
    query (hit o) r t_min t_max = Some h -> P (mat_ptr h).
Proof.
  induction o as [s | objects IH] using hitable_induction.
  - intros Hs r t_min t_max h.
    change (query (hit (Sphere s)) r t_min t_max)
      with (query (sphere_hit s) r t_min t_max).
    rewrite sphere_query_unfold.
    destruct (Rgtb _ 0); [| discriminate].
    destruct (in_range (sphere_root1 s r) _ _); [intros [= <-]; exact Hs |].
    destruct (in_range (sphere_root2 s r) _ _); [intros [= <-]; exact Hs |].
    discriminate.
  - intros Hall r t_min t_max h Hq.
    rewrite (list_query_nearest _ (all_regular _)) in Hq.
    apply (nearest_in hitable hit objects (all_regular objects)) in Hq.
    destruct Hq as (o & Hin & Hq).
    apply all_mats_list in Hall.
    rewrite Forall_forall in IH, Hall.
    exact (IH o Hin (Hall o Hin) r t_min t_max h Hq).
Qed.

Lemma random_in_unit_sphere_step (fuel : nat) (st : rng) :
  random_in_unit_sphere (S fuel) st =
  let '(v, st') := random_vec3 (-1) 1 st in
  if Rgeb (Vec3.squared_length v) 1 then random_in_unit_sphere fuel st'
  else Ok (v, st').
Proof. reflexivity. Qed.

Lemma random_in_unit_sphere_defined (fuel : nat) (st : rng) :
  random_in_unit_sphere fuel st <> Undefined.
Proof.
  revert st. induction fuel as [| fuel IH]; intros st; [discriminate |].
  rewrite random_in_unit_sphere_step.
  destruct (random_vec3 (-1) 1 st) as [v st'].
  destruct (Rgeb (Vec3.squared_length v) 1); [apply IH | discriminate].
Qed.

Lemma scatter_defined (m : material) (fuel : nat) (r_in : ray)
    (rec : hit_record) (st : rng) :
  scatter m fuel r_in rec st <> Undefined.
Proof.
  destruct m as [albedo | albedo | ref_idx]; simpl.
  - unfold Lambertian.scatter.
    pose proof (random_in_unit_sphere_defined fuel st) as H.
    destruct (random_in_unit_sphere fuel st) as [[rnd st'] | |]; simpl;
      [discriminate | discriminate | contradiction].
  - discriminate.
  - unfold Dielectric.scatter.
    destruct (Dielectric.orient ref_idx r_in rec) as [[n ni] c].
    destruct (Dielectric.refract _ _ _ _) as [ok refracted].
    destruct (rand st). discriminate.
Qed.

(** One step of [color] below the depth bound. *)
Lemma color_step (fuel : nat) (r : ray) (world : hitable) (depth : Z)
    (st : rng) :
  (depth <= 50)%Z ->
  color (S fuel) r world depth st =
  match query (hit world) r 0.0001 FLT_MAX with
  | Some rec =>
      match mat_ptr rec with
      | None => Undefined
      | Some m =>
          '(scatters, attenuation, scattered, st') <-
             scatter m fuel r rec st ;;
          if (scatters : bool) then
            '(c, st'') <- color fuel scattered world (depth + 1) st' ;;
            Ok ((attenuation * c)%v3, st'')
          else Ok (mkvec3 0 0 0, st')
      end
  | None => Ok (background r, st)
  end.
Proof.
  intros Hd. simpl.
  assert (E : (depth >? 50)%Z = false)
    by (rewrite Z.gtb_ltb; apply Z.ltb_ge; lia).
  rewrite E. unfold query.
  destruct (hit world r 0.0001 FLT_MAX hit_record_uninit) as [[|] rec];
    reflexivity.
Qed.

(** X9.  When every sphere of the scene has a material, [color] never
    dereferences a null [mat_ptr]: for every ray, depth, random state and
    amount of fuel its outcome is not [Undefined]. *)
Theorem color_never_undefined (world : hitable) (fuel : nat) (r : ray)
    (depth : Z) (st : rng) :
  all_mats has_material world ->
  color fuel r world depth st <> Undefined.
Proof.
  intros Hw. revert r depth st.
  induction fuel as [| fuel IH]; intros r depth st.
  - simpl. destruct (depth >? 50)%Z; discriminate.
  - destruct (Z_le_gt_dec depth 50) as [Hd | Hd].
    + rewrite (color_step fuel r world depth st Hd).
      destruct (query (hit world) r 0.0001 FLT_MAX) as [rec |] eqn:E;
        [| discriminate].
      pose proof (hit_mat has_material world Hw _ _ _ _ E) as Hm.
      destruct (mat_ptr rec) as [m |]; [| exfalso; apply Hm; reflexivity].
      pose proof (scatter_defined m fuel r rec st) as Hs.
      destruct (scatter m fuel r rec st) as [[[[b att] sc] st'] | |]; simpl;
        [| discriminate | contradiction].
      destruct b; [| discriminate].
      pose proof (IH sc (depth + 1)%Z st') as Hc.
      destruct (color fuel sc world (depth + 1) st') as [[c st''] | |]; simpl;
        [discriminate | discriminate | contradiction].
    + simpl. apply Z.gt_lt in Hd. apply Z.gtb_lt in Hd. rewrite Hd. discriminate.
Qed.

(** X10.  The depth cut-off bounds the recursion: in a scene whose spheres
    are all metal or glass, [color] returns a colour for every ray and
    every random state as soon as the fuel covers the [51 - depth] calls
    that remain before the cut-off. *)
Theorem color_terminates (world : hitable) (fuel : nat) (r : ray)
    (depth : Z) (st : rng) :
  all_mats specular world ->
  (51 - depth <= Z.of_nat fuel)%Z ->
  exists c st', color fuel r world depth st = Ok (c, st').
Proof.
  intros Hw. revert r depth st.
  induction fuel as [| fuel IH]; intros r depth st Hf.
  - simpl. assert (E : (depth >? 50)%Z = true) by (apply Z.gtb_lt; lia).
    rewrite E. eauto.
  - destruct (Z_le_gt_dec depth 50) as [Hd | Hd].
    + rewrite (color_step fuel r world depth st Hd).
      destruct (query (hit world) r 0.0001 FLT_MAX) as [rec |] eqn:E;
        [| eauto].
      pose proof (hit_mat specular world Hw _ _ _ _ E) as Hm.
      assert (Hnext : forall sc st1, exists c st',
                color fuel sc world (depth + 1) st1 = Ok (c, st'))
        by (intros; apply IH; lia).
      destruct (mat_ptr rec) as [[albedo | albedo | ref_idx] |];
        simpl in Hm; try contradiction; simpl scatter.
      * unfold Metal.scatter. simpl.
        destruct (Rgtb _ 0); [| eauto].
        destruct (Hnext (mkray (p rec)
                    (Metal.reflect (Vec3.unit_vector (Ray.direction r))
                                   (normal rec))) st) as (c & st' & ->).
        simpl. eauto.
      * unfold Dielectric.scatter.
        destruct (Dielectric.orient ref_idx r rec) as [[n ni] cs].
        destruct (Dielectric.refract _ _ _ _) as [ok refracted].
        destruct (rand st) as [x st1]. simpl.
        match goal with
        | |- context [color fuel ?sc world (depth + 1) st1] =>
            destruct (Hnext sc st1) as (c & st' & ->)
        end.
        simpl. eauto.
    + simpl. apply Z.gt_lt in Hd. apply Z.gtb_lt in Hd. rewrite Hd. eauto.
Qed.

Lemma color_never_undefined_witness :
  color 3 ex_ray (HitableList [Sphere ex_far; Sphere ex_near]) 0 ex_rng
  <> Undefined.
Proof.
  apply (color_never_undefined (HitableList [Sphere ex_far; Sphere ex_near])
           3 ex_ray 0 ex_rng).
  simpl. unfold has_material. repeat split; discriminate.
Defined.

Lemma color_terminates_witness :
  exists c st', color 51 ex_glass_ray ex_world_specular 0 ex_rng = Ok (c, st').
Proof.
  apply (color_terminates ex_world_specular 51 ex_glass_ray 0 ex_rng).
  - simpl. auto.
  - simpl. lia.
Defined.

(** ** The background *)

Lemma unit_vector_component_bound (v : vec3) :
  v <> Vec3.zero -> -1 <= e1 (Vec3.unit_vector v) <= 1.
Proof.
  intros Hv. pose proof (squared_length_pos v Hv) as Hpos.
  pose proof (sqrt_lt_R0 _ Hpos) as Hl.
  pose proof (sqrt_def _ (Rlt_le _ _ Hpos)) as Hsq.
  unfold Vec3.unit_vector, Vec3.div, Vec3.length. simpl.
  set (L := sqrt (Vec3.squared_length v)) in *.
  assert (Hy : e1 v * e1 v <= L * L).
  { rewrite Hsq. unfold Vec3.squared_length.
    pose proof (Rle_0_sqr (e0 v)). pose proof (Rle_0_sqr (e2 v)).
    unfold Rsqr in *. lra. }
  assert (Hb : - L <= e1 v <= L) by (split; nra).
  split.
  - apply (Rmult_le_reg_r L); [exact Hl |].
    replace (e1 v / L * L) with (e1 v) by (field; lra). lra.
  - apply (Rmult_le_reg_r L); [exact Hl |].
    replace (e1 v / L * L) with (e1 v) by (field; lra). lra.
Qed.

Lemma background_range (r : ray) :
  Ray.direction r <> Vec3.zero ->
  0.5 <= e0 (background r) <= 1 /\
  0.7 <= e1 (background r) <= 1 /\
  e2 (background r) = 1.
Proof.
  intros Hd. pose proof (unit_vector_component_bound _ Hd) as Hy.
  unfold background, Vec3.y. cbv zeta.
  set (u := e1 (Vec3.unit_vector (Ray.direction r))) in *.
  unfold Vec3.add, Vec3.scale_l. simpl. repeat split; lra.
Qed.

(** X11.  For every ray of non-zero direction the background colour lies
    between the sky colour (0.5, 0.7, 1.0) and white: red in [0.5, 1],
    green in [0.7, 1], blue equal to 1. *)
Theorem background_between_sky_and_white (r : ray) :
  Ray.direction r <> Vec3.zero ->
  0.5 <= e0 (background r) <= 1 /\
  0.7 <= e1 (background r) <= 1 /\
  e2 (background r) = 1.
Proof.
  intros Hd. pose proof (unit_vector_component_bound _ Hd) as Hy.
  unfold background, Vec3.y. cbv zeta.
  set (u := e1 (Vec3.unit_vector (Ray.direction r))) in *.
  unfold Vec3.add, Vec3.scale_l. simpl. repeat split; lra.
Qed.

Lemma background_between_sky_and_white_witness :
  0.5 <= e0 (background ex_ray) <= 1 /\
  0.7 <= e1 (background ex_ray) <= 1 /\
  e2 (background ex_ray) = 1.
Proof.
  apply (background_between_sky_and_white ex_ray). exact ex_ray_direction.
Defined.

(** ** Metal *)

Lemma reflect_squared_length (v n : vec3) :
  Vec3.squared_length n = 1 ->
  Vec3.squared_length (Metal.reflect v n) = Vec3.squared_length v.
Proof.
  intros Hn.
  replace (Vec3.squared_length (Metal.reflect v n))
    with (Vec3.squared_length v
          + 4 * (Vec3.dot v n * Vec3.dot v n) * (Vec3.squared_length n - 1)).
  - rewrite Hn. ring.
  - unfold Metal.reflect, Vec3.squared_length, Vec3.dot, Vec3.sub,
      Vec3.scale_l. simpl. ring.
Qed.

(** X12.  [metal::scatter], for a normal of length 1 and an incoming ray
    of non-zero direction: it draws no random number, the attenuation is
    the albedo, the scattered ray starts at the hit point with a direction
    of length 1, and the result is true exactly when the incoming direction
    has a negative dot product with the normal. *)
Theorem metal_scatter_spec (albedo : vec3) (r_in : ray) (rec : hit_record)
    (st : rng) :
  Vec3.length (normal rec) = 1 ->
  Ray.direction r_in <> Vec3.zero ->
  exists b scattered,
    Metal.scatter albedo r_in rec st = Ok (b, albedo, scattered, st) /\
    Ray.origin scattered = p rec /\
    Vec3.length (Ray.direction scattered) = 1 /\
    (b = true <-> Vec3.dot (Ray.direction r_in) (normal rec) < 0).
Proof.
  intros Hn Hd. apply length_unit_squared in Hn.
  pose proof (squared_length_pos _ Hd) as Hpos.
  pose proof (sqrt_lt_R0 _ Hpos) as Hl.
  unfold Metal.scatter. cbv zeta.
  eexists. eexists. split; [reflexivity |]. split; [reflexivity |]. split.
  - apply length_of_squared; [lra |].
    unfold Ray.direction at 1. simpl dir.
    rewrite (reflect_squared_length _ _ Hn).
    rewrite squared_length_dot, dot_unit_vector_self by exact Hd. ring.
  - unfold Ray.direction at 1. simpl dir.
    rewrite (reflect_dot _ _ Hn), dot_unit_vector_l.
    fold (Vec3.length (Ray.direction r_in)) in Hl.
    set (L := Vec3.length (Ray.direction r_in)) in *.
    set (D := Vec3.dot (Ray.direction r_in) (normal rec)).
    assert (HD : D = D / L * L) by (field; lra).
    destruct (Rgtb_spec (- (D / L)) 0) as [H | H]; split; intros H'.
    + nra.
    + reflexivity.
    + discriminate.
    + exfalso. apply H. nra.
Qed.

(** ** Lambertian *)

Lemma cauchy_schwarz (a b : vec3) :
  Vec3.dot a b * Vec3.dot a b <= Vec3.dot a a * Vec3.dot b b.
Proof.
  pose proof (cross_squared_length a b) as HL.
  pose proof (squared_length_nonneg (Vec3.cross a b)) as Hn.
  rewrite squared_length_dot in Hn. lra.
Qed.

Lemma random_in_unit_sphere_post (fuel : nat) (st st' : rng) (v : vec3) :
  random_in_unit_sphere fuel st = Ok (v, st') ->
  Vec3.squared_length v < 1 /\
  (exists k, (1 <= k <= fuel)%nat /\
             generator_pos st' = (generator_pos st + 3 * k)%nat) /\
  rand_pos st' = rand_pos st /\ rand_seq st' = rand_seq st /\
  generator st' = generator st.
Proof.
  revert st. induction fuel as [| fuel IH]; intros st; [discriminate |].
  rewrite random_in_unit_sphere_step.
  destruct (random_vec3 (-1) 1 st) as [v1 st1] eqn:E.
  assert (Hst1 : generator_pos st1 = (generator_pos st + 3)%nat /\
                 rand_pos st1 = rand_pos st /\ rand_seq st1 = rand_seq st /\
                 generator st1 = generator st).
  { unfold random_vec3, random_float in E. injection E as _ <-. simpl.
    repeat split; lia. }
  destruct Hst1 as (Hg & Hr & Hs & Hgen).
  destruct (Rgeb_spec (Vec3.squared_length v1) 1) as [Hout | Hin].
  - intros H. apply IH in H.
    destruct H as (Hv & (k & Hk & Hpos) & Hr' & Hs' & Hgen').
    split; [exact Hv |]. split.
    + exists (S k). split; [lia |]. rewrite Hpos, Hg. lia.
    + rewrite Hr', Hs', Hgen'. auto.
  - intros [= <- <-]. split; [lra |]. split.
    + exists 1%nat. split; [lia |]. rewrite Hg. lia.
    + auto.
Qed.

(** X13.  Whenever [random_in_unit_sphere] returns, the point lies
    strictly inside the unit ball; it has then consumed three draws of the
    generator for each candidate tried, and no [rand()]. *)
Theorem random_in_unit_sphere_inside (fuel : nat) (st st' : rng) (v : vec3) :
  random_in_unit_sphere fuel st = Ok (v, st') ->
  Vec3.squared_length v < 1 /\
  (exists k, (1 <= k <= fuel)%nat /\
             generator_pos st' = (generator_pos st + 3 * k)%nat) /\
  rand_pos st' = rand_pos st /\ rand_seq st' = rand_seq st /\
  generator st' = generator st.
Proof. apply random_in_unit_sphere_post. Qed.

Lemma lambertian_scatter_post (albedo : vec3) (fuel : nat) (r_in : ray)
    (rec : hit_record) (st st' : rng) (b : bool) (attenuation : vec3)
    (scattered : ray) :
  Vec3.length (normal rec) = 1 ->
  Lambertian.scatter albedo fuel r_in rec st
  = Ok (b, attenuation, scattered, st') ->
  b = true /\ attenuation = albedo /\ Ray.origin scattered = p rec /\
  Vec3.squared_length (Ray.direction scattered - normal rec)%v3 < 1 /\
  0 < Vec3.dot (Ray.direction scattered) (normal rec).
Proof.
  intros Hn. apply length_unit_squared in Hn. rewrite squared_length_dot in Hn.
  unfold Lambertian.scatter.
  destruct (random_in_unit_sphere fuel st) as [[rnd st1] | |] eqn:E;
    simpl; try discriminate.
  intros [= <- <- <- <-].
  apply random_in_unit_sphere_post in E. destruct E as [Hin _].
  split; [reflexivity |]. split; [reflexivity |]. split; [reflexivity |].
  unfold Ray.direction. simpl dir. split.
  - replace (Vec3.squared_length (p rec + normal rec + rnd - p rec - normal rec)%v3)
      with (Vec3.squared_length rnd); [exact Hin |].
    unfold Vec3.squared_length, Vec3.sub, Vec3.add. simpl. ring.
  - replace (Vec3.dot (p rec + normal rec + rnd - p rec)%v3 (normal rec))
      with (Vec3.dot (normal rec) (normal rec) + Vec3.dot rnd (normal rec))
      by (unfold Vec3.dot, Vec3.sub, Vec3.add; simpl; ring).
    pose proof (cauchy_schwarz rnd (normal rec)) as CS.
    rewrite <- squared_length_dot in CS. rewrite Hn in *.
    set (q := Vec3.dot rnd (normal rec)) in *.
    assert (q * q < 1) by nra. nra.
Qed.

(** X14.  Whenever [lambertian::scatter] returns, for a normal of length
    1: the result is true, the attenuation is the albedo, the scattered ray
    starts at the hit point, its direction is within distance 1 of the
    normal and has a positive dot product with it (so it is not zero and
    leaves on the side of the normal). *)
Theorem lambertian_scatter_spec (albedo : vec3) (fuel : nat) (r_in : ray)
    (rec : hit_record) (st st' : rng) (b : bool) (attenuation : vec3)
    (scattered : ray) :
  Vec3.length (normal rec) = 1 ->
  Lambertian.scatter albedo fuel r_in rec st
  = Ok (b, attenuation, scattered, st') ->
  b = true /\ attenuation = albedo /\ Ray.origin scattered = p rec /\
  Vec3.squared_length (Ray.direction scattered - normal rec)%v3 < 1 /\
  0 < Vec3.dot (Ray.direction scattered) (normal rec).
Proof. apply lambertian_scatter_post. Qed.

Lemma ex_glass_normal_length : Vec3.length (normal ex_glass_rec) = 1.
Proof.
  apply length_of_squared; [lra |].
  unfold Vec3.squared_length. simpl. lra.
Qed.

Lemma ex_glass_ray_direction : Ray.direction ex_glass_ray <> Vec3.zero.
Proof. intros H. apply (f_equal e0) in H. simpl in H. lra. Qed.

Lemma metal_scatter_spec_witness :
  exists b scattered,
    Metal.scatter (mkvec3 0.8 0.6 0.2) ex_glass_ray ex_glass_rec ex_rng
    = Ok (b, mkvec3 0.8 0.6 0.2, scattered, ex_rng) /\
    Ray.origin scattered = p ex_glass_rec /\
    Vec3.length (Ray.direction scattered) = 1 /\
    (b = true <->
     Vec3.dot (Ray.direction ex_glass_ray) (normal ex_glass_rec) < 0).
Proof.
  apply (metal_scatter_spec (mkvec3 0.8 0.6 0.2) ex_glass_ray ex_glass_rec ex_rng).
  - exact ex_glass_normal_length.
  - exact ex_glass_ray_direction.
Defined.

Lemma ex_centre_sample :
  random_in_unit_sphere 1 ex_rng_centre
  = Ok (fst (random_vec3 (-1) 1 ex_rng_centre),
        snd (random_vec3 (-1) 1 ex_rng_centre)).
Proof.
  rewrite random_in_unit_sphere_step.
  destruct (random_vec3 (-1) 1 ex_rng_centre) as [v st'] eqn:E.
  assert (Hv : Vec3.squared_length v < 1).
  { unfold random_vec3, random_float, ex_rng_centre in E.
    injection E as <- _. unfold Vec3.squared_length. simpl. lra. }
  destruct (Rgeb_spec (Vec3.squared_length v) 1) as [H | H]; [lra |].
  reflexivity.
Qed.

Lemma random_in_unit_sphere_inside_witness :
  Vec3.squared_length (fst (random_vec3 (-1) 1 ex_rng_centre)) < 1 /\
  (exists k, (1 <= k <= 1)%nat /\
             generator_pos (snd (random_vec3 (-1) 1 ex_rng_centre))
             = (generator_pos ex_rng_centre + 3 * k)%nat) /\
  rand_pos (snd (random_vec3 (-1) 1 ex_rng_centre)) = rand_pos ex_rng_centre /\
  rand_seq (snd (random_vec3 (-1) 1 ex_rng_centre)) = rand_seq ex_rng_centre /\
  generator (snd (random_vec3 (-1) 1 ex_rng_centre)) = generator ex_rng_centre.
Proof.
  apply (random_in_unit_sphere_inside 1 ex_rng_centre). exact ex_centre_sample.
Defined.

Lemma lambertian_scatter_spec_witness :
  let rnd := fst (random_vec3 (-1) 1 ex_rng_centre) in
  let scattered :=
    mkray (p ex_glass_rec)
          (p ex_glass_rec + normal ex_glass_rec + rnd - p ex_glass_rec)%v3 in
  true = true /\ mkvec3 0.5 0.5 0.5 = mkvec3 0.5 0.5 0.5 /\
  Ray.origin scattered = p ex_glass_rec /\
  Vec3.squared_length (Ray.direction scattered - normal ex_glass_rec)%v3 < 1 /\
  0 < Vec3.dot (Ray.direction scattered) (normal ex_glass_rec).
Proof.
  cbv zeta.
  apply (lambertian_scatter_spec (mkvec3 0.5 0.5 0.5) 1 ex_glass_ray
           ex_glass_rec ex_rng_centre
           (snd (random_vec3 (-1) 1 ex_rng_centre))).
  - exact ex_glass_normal_length.
  - unfold Lambertian.scatter. rewrite ex_centre_sample. reflexivity.
Defined.

(** ** Dielectric *)

(** X15.  [dielectric::schlick] for a positive refractive index and a
    cosine in [0,1]: the value is a probability, between the reflectance at
    normal incidence [r0 = ((1-n)/(1+n))^2] and 1; it is 1 at cosine 0 and
    [r0] at cosine 1, and it does not increase with the cosine. *)
Theorem schlick_probability (ref_idx cosine cosine' : R) :
  0 < ref_idx ->
  0 <= cosine <= cosine' -> cosine' <= 1 ->
  let r0 := (1 - ref_idx) / (1 + ref_idx) * ((1 - ref_idx) / (1 + ref_idx)) in
  0 <= r0 < 1 /\
  r0 <= Dielectric.schlick ref_idx cosine <= 1 /\
  Dielectric.schlick ref_idx cosine' <= Dielectric.schlick ref_idx cosine /\
  Dielectric.schlick ref_idx 0 = 1 /\
  Dielectric.schlick ref_idx 1 = r0.
Proof.
  intros Hn Hc Hc1. cbv zeta. unfold Dielectric.schlick. cbv zeta.
  set (q := (1 - ref_idx) / (1 + ref_idx)).
  assert (Hq : -1 < q < 1).
  { unfold q. split.
    - apply (Rmult_lt_reg_r (1 + ref_idx)); [lra |].
      replace ((1 - ref_idx) / (1 + ref_idx) * (1 + ref_idx))
        with (1 - ref_idx) by (field; lra). lra.
    - apply (Rmult_lt_reg_r (1 + ref_idx)); [lra |].
      replace ((1 - ref_idx) / (1 + ref_idx) * (1 + ref_idx))
        with (1 - ref_idx) by (field; lra). lra. }
  assert (Hr0 : 0 <= q * q < 1) by (split; nra).
  assert (Hp : 0 <= (1 - cosine) ^ 5 <= 1).
  { split; [apply pow_le; lra |].
    rewrite <- (pow1 5). apply pow_incr. lra. }
  assert (Hp' : 0 <= (1 - cosine') ^ 5 <= (1 - cosine) ^ 5).
  { split; [apply pow_le; lra | apply pow_incr; lra]. }
  set (x := (1 - cosine) ^ 5) in *. set (x' := (1 - cosine') ^ 5) in *.
  split; [exact Hr0 |]. split; [split; nra |]. split; [nra |].
  split.
  - replace (1 - 0) with 1 by ring. rewrite pow1. ring.
  - replace (1 - 1) with 0 by ring. rewrite pow_i by lia. ring.
Qed.

Lemma schlick_probability_witness :
  let r0 := (1 - 1.5) / (1 + 1.5) * ((1 - 1.5) / (1 + 1.5)) in
  0 <= r0 < 1 /\
  r0 <= Dielectric.schlick 1.5 0.5 <= 1 /\
  Dielectric.schlick 1.5 1 <= Dielectric.schlick 1.5 0.5 /\
  Dielectric.schlick 1.5 0 = 1 /\
  Dielectric.schlick 1.5 1 = r0.
Proof.
  apply (schlick_probability 1.5 0.5 1); lra.
Defined.

(** The squared length of the vector [refract] builds, and its component
    along the normal, for any vectors and scalars. *)
Lemma refract_vector_expand (uv n : vec3) (k dt sd : R) :
  let v := (k *: (uv - n :* dt) - n :* sd)%v3 in
  Vec3.squared_length v =
  k * k * (Vec3.dot uv uv - 2 * dt * Vec3.dot uv n
           + dt * dt * Vec3.dot n n)
  - 2 * k * sd * (Vec3.dot uv n - dt * Vec3.dot n n)
  + sd * sd * Vec3.dot n n /\
  Vec3.dot v n = k * (Vec3.dot uv n - dt * Vec3.dot n n) - sd * Vec3.dot n n.
Proof.
  unfold Vec3.squared_length, Vec3.dot, Vec3.sub, Vec3.scale, Vec3.scale_l.
  simpl. split; ring.
Qed.

(** X16.  When [dielectric::refract] succeeds, for a normal of length 1
    and a non-zero incoming direction, the refracted vector has length 1
    and its component along the normal is minus the square root of the
    discriminant: it continues through the surface. *)
Theorem refract_unit (v n : vec3) (ni_over_nt : R) (refracted0 refracted : vec3) :
  Vec3.length n = 1 -> v <> Vec3.zero ->
  Dielectric.refract v n ni_over_nt refracted0 = (true, refracted) ->
  Vec3.length refracted = 1 /\
  Vec3.dot refracted n
  = - sqrt (Dielectric.refract_discriminant v n ni_over_nt) /\
  Vec3.dot refracted n < 0.
Proof.
  intros Hn Hv. apply length_unit_squared in Hn.
  rewrite squared_length_dot in Hn.
  pose proof (dot_unit_vector_self v Hv) as Huv.
  unfold Dielectric.refract, Dielectric.refract_discriminant. cbv zeta.
  set (uv := Vec3.unit_vector v) in *.
  set (dt := Vec3.dot uv n).
  set (d := 1 - ni_over_nt * ni_over_nt * (1 - dt * dt)).
  destruct (Rgtb_spec d 0) as [Hd | Hd]; [| discriminate].
  intros [= <-].
  pose proof (sqrt_def d (Rlt_le _ _ Hd)) as Hs.
  pose proof (sqrt_lt_R0 d Hd) as Hs0.
  destruct (refract_vector_expand uv n ni_over_nt dt (sqrt d)) as [Esq Edot].
  cbv zeta in Esq, Edot. fold dt in Esq, Edot.
  rewrite Huv, Hn in Esq. rewrite Hn in Edot.
  split; [| split].
  - apply length_of_squared; [lra |]. rewrite Esq.
    replace (sqrt d * sqrt d * 1) with d by lra. unfold d. ring.
  - rewrite Edot. ring.
  - rewrite Edot. lra.
Qed.

Lemma refract_discriminant_entering (v n : vec3) (ref_idx : R) :
  1 < ref_idx ->
  0 < Dielectric.refract_discriminant v n (1 / ref_idx).
Proof.
  intros Hn. unfold Dielectric.refract_discriminant. cbv zeta.
  set (dt := Vec3.dot (Vec3.unit_vector v) n).
  assert (Hk : 0 < 1 / ref_idx < 1).
  { split.
    - apply Rdiv_lt_0_compat; lra.
    - apply (Rmult_lt_reg_r ref_idx); [lra |].
      replace (1 / ref_idx * ref_idx) with 1 by (field; lra). lra. }
  set (k := 1 / ref_idx) in *.
  assert (Hkk : 0 < k * k < 1) by (split; nra).
  pose proof (Rle_0_sqr dt) as Hdt. unfold Rsqr in Hdt.
  nra.
Qed.

Lemma refract_succeeds (v n : vec3) (ni_over_nt : R) (refracted0 : vec3) :
  0 < Dielectric.refract_discriminant v n ni_over_nt ->
  Dielectric.refract v n ni_over_nt refracted0
  = (true, snd (Dielectric.refract v n ni_over_nt refracted0)).
Proof.
  unfold Dielectric.refract_discriminant, Dielectric.refract. cbv zeta.
  intros Hd. rewrite Rgtb_true by exact Hd. reflexivity.
Qed.

Lemma ex_up_normal_length : Vec3.length ex_up_normal = 1.
Proof.
  apply length_of_squared; [lra |]. unfold Vec3.squared_length. simpl. ring.
Qed.

Lemma refract_unit_witness :
  let refracted :=
    snd (Dielectric.refract (Ray.direction ex_ray) ex_up_normal (1 / 1.5)
                            Vec3.zero) in
  Vec3.length refracted = 1 /\
  Vec3.dot refracted ex_up_normal
  = - sqrt (Dielectric.refract_discriminant (Ray.direction ex_ray)
              ex_up_normal (1 / 1.5)) /\
  Vec3.dot refracted ex_up_normal < 0.
Proof.
  cbv zeta.
  apply (refract_unit (Ray.direction ex_ray) ex_up_normal (1 / 1.5) Vec3.zero).
  - exact ex_up_normal_length.
  - exact ex_ray_direction.
  - apply refract_succeeds, refract_discriminant_entering. lra.
Defined.

(** X17.  A ray of non-zero direction that enters a medium of refractive
    index greater than 1 (its direction has a non-positive dot product with
    the normal) is never totally reflected: [dielectric::scatter] keeps the
    normal, uses the ratio [1/ref_idx], and [refract] succeeds. *)
Theorem dielectric_entering_refracts (ref_idx : R) (r_in : ray)
    (rec : hit_record) (refracted0 : vec3) :
  1 < ref_idx ->
  Ray.direction r_in <> Vec3.zero ->
  Vec3.dot (Ray.direction r_in) (normal rec) <= 0 ->
  let '(outward_normal, ni_over_nt, _) := Dielectric.orient ref_idx r_in rec in
  outward_normal = normal rec /\ ni_over_nt = 1 / ref_idx /\
  fst (Dielectric.refract (Ray.direction r_in) outward_normal ni_over_nt
         refracted0) = true.
Proof.
  intros Hn _ Hdot. unfold Dielectric.orient.
  rewrite Rgtb_false by exact Hdot.
  split; [reflexivity |]. split; [reflexivity |].
  rewrite refract_succeeds; [reflexivity |].
  apply refract_discriminant_entering. exact Hn.
Qed.

Lemma dielectric_entering_refracts_witness :
  let '(outward_normal, ni_over_nt, _) :=
    Dielectric.orient 1.5 ex_ray ex_front_rec in
  outward_normal = normal ex_front_rec /\ ni_over_nt = 1 / 1.5 /\
  fst (Dielectric.refract (Ray.direction ex_ray) outward_normal ni_over_nt
         Vec3.zero) = true.
Proof.
  apply (dielectric_entering_refracts 1.5 ex_ray ex_front_rec Vec3.zero).
  - lra.
  - exact ex_ray_direction.
  - unfold Vec3.dot. simpl. lra.
Defined.

(** X18.  [dielectric::scatter] never absorbs: for every input it returns
    true with attenuation (1,1,1) and a ray that starts at the hit point,
    whose direction is the mirror reflection or the vector [refract]
    leaves in [refracted]; it calls [rand()] once and draws nothing from
    the generator of [random_float]. *)
Theorem dielectric_scatter_always (ref_idx : R) (r_in : ray)
    (rec : hit_record) (st : rng) :
  exists scattered,
    Dielectric.scatter ref_idx r_in rec st
    = Ok (true, mkvec3 1 1 1, scattered, snd (rand st)) /\
    Ray.origin scattered = p rec /\
    (let '(outward_normal, ni_over_nt, _) :=
       Dielectric.orient ref_idx r_in rec in
     Ray.direction scattered
     = Dielectric.reflect (Vec3.unit_vector (Ray.direction r_in)) (normal rec)
     \/ Ray.direction scattered
        = snd (Dielectric.refract (Ray.direction r_in) outward_normal
                 ni_over_nt Vec3.zero)) /\
    rand_pos (snd (rand st)) = S (rand_pos st) /\
    generator_pos (snd (rand st)) = generator_pos st /\
    distribution (snd (rand st)) = distribution st.
Proof.
  unfold Dielectric.scatter. cbv zeta.
  destruct (Dielectric.orient ref_idx r_in rec) as [[outward_normal ni_over_nt] cosine].
  destruct (Dielectric.refract (Ray.direction r_in) outward_normal ni_over_nt
              Vec3.zero) as [ok refracted].
  unfold rand. simpl.
  match goal with
  | |- context [if Rltb ?a ?b then _ else _] => destruct (Rltb a b)
  end; eexists; (split; [reflexivity |]); simpl; auto 6.
Qed.

(** ** The camera, continued *)

Lemma get_ray_centre_direction (o u v w : vec3) (hw hh : R) :
  let cam := mkcamera o ((2 * hw) *: u)%v3 ((2 * hh) *: v)%v3
                      (o - hw *: u - hh *: v - w)%v3 in
  Ray.direction (Camera.get_ray cam (1 / 2) (1 / 2)) = (- w)%v3.
Proof.
  apply vec3_eq;
    unfold Camera.get_ray, Ray.direction, Vec3.add, Vec3.sub, Vec3.scale_l,
      Vec3.neg; simpl; field.
Qed.

Lemma walk_back (a b : vec3) :
  (a - b)%v3 <> Vec3.zero ->
  (a + Vec3.length (a - b) *: (- Vec3.unit_vector (a - b)))%v3 = b.
Proof.
  intros Hne.
  pose proof (sqrt_lt_R0 _ (squared_length_pos _ Hne)) as Hl.
  fold (Vec3.length (a - b)%v3) in Hl.
  unfold Vec3.unit_vector.
  remember (Vec3.length (a - b)%v3) as L eqn:EL. clear EL.
  apply vec3_eq;
    unfold Vec3.add, Vec3.sub, Vec3.scale_l, Vec3.neg, Vec3.div; simpl;
    field; lra.
Qed.

(** X19.  For a camera built from non-degenerate inputs, the ray through
    the centre of the viewport, [get_ray(1/2, 1/2)], starts at [lookfrom],
    has direction [-w], and reaches [lookat] at the parameter
    [|lookfrom - lookat|]. *)
Theorem get_ray_centre (lookfrom lookat vup : vec3) (vfov aspect : R) :
  camera_inputs_ok lookfrom lookat vup ->
  let cam := Camera.new lookfrom lookat vup vfov aspect in
  let centre := Camera.get_ray cam (1 / 2) (1 / 2) in
  Ray.origin centre = lookfrom /\
  Ray.direction centre = (- Camera.basis_w lookfrom lookat)%v3 /\
  Ray.at_ centre (Vec3.length (lookfrom - lookat)%v3) = lookat.
Proof.
  intros [Hne _]. cbv zeta.
  assert (Hdir : Ray.direction
                   (Camera.get_ray (Camera.new lookfrom lookat vup vfov aspect)
                                   (1 / 2) (1 / 2))
                 = (- Camera.basis_w lookfrom lookat)%v3).
  { unfold Camera.new. cbv zeta. apply get_ray_centre_direction. }
  split; [reflexivity |]. split; [exact Hdir | ].
  change (Ray.at_ (Camera.get_ray (Camera.new lookfrom lookat vup vfov aspect)
                     (1 / 2) (1 / 2))
                  (Vec3.length (lookfrom - lookat)%v3))
    with (lookfrom + Vec3.length (lookfrom - lookat)
                     *: Ray.direction
                          (Camera.get_ray
                             (Camera.new lookfrom lookat vup vfov aspect)
                             (1 / 2) (1 / 2)))%v3.
  rewrite Hdir. apply walk_back. exact Hne.
Qed.

Lemma get_ray_centre_witness :
  let centre := Camera.get_ray ex_camera (1 / 2) (1 / 2) in
  Ray.origin centre = ex_lookfrom /\
  Ray.direction centre = (- Camera.basis_w ex_lookfrom ex_lookat)%v3 /\
  Ray.at_ centre (Vec3.length (ex_lookfrom - ex_lookat)%v3) = ex_lookat.
Proof.
  apply (get_ray_centre ex_lookfrom ex_lookat ex_vup 90 1).
  exact ex_camera_inputs_ok.
Defined.

Lemma viewport_expand (o u v w : vec3) (hw hh s t0 : R) :
  let cam := mkcamera o ((2 * hw) *: u)%v3 ((2 * hh) *: v)%v3
                      (o - hw *: u - hh *: v - w)%v3 in
  Vec3.dot (horizontal cam) (vertical cam) = 4 * hw * hh * Vec3.dot u v /\
  Vec3.squared_length (horizontal cam) = 2 * hw * (2 * hw) * Vec3.dot u u /\
  Vec3.squared_length (vertical cam) = 2 * hh * (2 * hh) * Vec3.dot v v /\
  Vec3.dot (Ray.direction (Camera.get_ray cam s t0)) w
  = (2 * s - 1) * hw * Vec3.dot u w + (2 * t0 - 1) * hh * Vec3.dot v w
    - Vec3.dot w w.
Proof.
  unfold Camera.get_ray, Ray.direction, Vec3.squared_length, Vec3.dot,
    Vec3.add, Vec3.sub, Vec3.scale_l. simpl.
  repeat split; ring.
Qed.

(** X20.  For a camera built from non-degenerate inputs: the two spans of
    the viewport are orthogonal, their squared lengths are
    [(2 half_width)^2] and [(2 half_height)^2], and every ray [get_ray]
    returns has component -1 along the back vector [w]: the viewport is a
    rectangle in the plane at distance 1 in front of the camera. *)
Theorem camera_viewport (lookfrom lookat vup : vec3) (vfov aspect s t0 : R) :
  camera_inputs_ok lookfrom lookat vup ->
  let cam := Camera.new lookfrom lookat vup vfov aspect in
  Vec3.dot (horizontal cam) (vertical cam) = 0 /\
  Vec3.squared_length (horizontal cam)
  = (2 * Camera.half_width vfov aspect) * (2 * Camera.half_width vfov aspect) /\
  Vec3.squared_length (vertical cam)
  = (2 * Camera.half_height vfov) * (2 * Camera.half_height vfov) /\
  Vec3.dot (Ray.direction (Camera.get_ray cam s t0))
           (Camera.basis_w lookfrom lookat) = -1.
Proof.
  intros Hok. cbv zeta.
  destruct (camera_basis_orthonormal lookfrom lookat vup Hok)
    as (Eww & Euu & Evv & Euw & Evw & Euv).
  unfold Camera.new. cbv zeta.
  destruct (viewport_expand lookfrom
              (Camera.basis_u lookfrom lookat vup)
              (Camera.basis_v lookfrom lookat vup)
              (Camera.basis_w lookfrom lookat)
              (Camera.half_width vfov aspect) (Camera.half_height vfov) s t0)
    as (E1 & E2 & E3 & E4).
  cbv zeta in E1, E2, E3, E4.
  rewrite E1, E2, E3, E4, Eww, Euu, Evv, Euw, Evw, Euv.
  repeat split; ring.
Qed.

Lemma camera_viewport_witness :
  Vec3.dot (horizontal ex_camera) (vertical ex_camera) = 0 /\
  Vec3.squared_length (horizontal ex_camera)
  = (2 * Camera.half_width 90 1) * (2 * Camera.half_width 90 1) /\
  Vec3.squared_length (vertical ex_camera)
  = (2 * Camera.half_height 90) * (2 * Camera.half_height 90) /\
  Vec3.dot (Ray.direction (Camera.get_ray ex_camera 0 1))
           (Camera.basis_w ex_lookfrom ex_lookat) = -1.
Proof.
  apply (camera_viewport ex_lookfrom ex_lookat ex_vup 90 1 0 1).
  exact ex_camera_inputs_ok.
Defined.

(** ** [clamp] and the pixel written to the file *)

Lemma clamp_range (x min max : R) :
  min <= max -> min <= clamp x min max <= max.
Proof.
  intros Hmm. unfold clamp.
  destruct (Rltb_spec x min); [lra |].
  destruct (Rgtb_spec x max); lra.
Qed.

(** X21.  [clamp] with [min <= max]: the result lies in [min, max], a
    value already in the interval is returned as it is, and clamping twice
    is clamping once. *)
Theorem clamp_spec (x min max : R) :
  min <= max ->
  min <= clamp x min max <= max /\
  (min <= x <= max -> clamp x min max = x) /\
  clamp (clamp x min max) min max = clamp x min max.
Proof.
  intros Hmm. unfold clamp.
  destruct (Rltb_spec x min) as [H1 | H1].
  - rewrite Rltb_false by lra. rewrite Rgtb_false by lra.
    repeat split; intros; lra.
  - destruct (Rgtb_spec x max) as [H2 | H2].
    + rewrite Rltb_false by lra. rewrite Rgtb_false by lra.
      repeat split; intros; lra.
    + rewrite Rltb_false by lra. rewrite Rgtb_false by lra.
      repeat split; intros; lra.
Qed.

Lemma clamp_spec_witness :
  0 <= clamp 1.5 0 0.999 <= 0.999 /\
  (0 <= 1.5 <= 0.999 -> clamp 1.5 0 0.999 = 1.5) /\
  clamp (clamp 1.5 0 0.999) 0 0.999 = clamp 1.5 0 0.999.
Proof. apply (clamp_spec 1.5 0 0.999). lra. Defined.

Lemma float_to_int_range (y : R) :
  0 <= y < 256 -> (0 <= float_to_int y <= 255)%Z.
Proof.
  intros Hy. unfold float_to_int. rewrite Rltb_false by lra.
  destruct (base_Int_part y) as [Hlo Hhi].
  split.
  - assert (H : (-1 < Int_part y)%Z) by (apply lt_IZR; simpl; lra). lia.
  - assert (H : (Int_part y < 256)%Z) by (apply lt_IZR; simpl; lra). lia.
Qed.

Lemma channel_range (c : R) :
  0 <= clamp (sqrt c) 0 0.999 * 256 < 256.
Proof.
  pose proof (clamp_range (sqrt c) 0 0.999 ltac:(lra)) as H. lra.
Qed.

(** One channel of [write_pixel], from the accumulated value [c]. *)
Lemma write_pixel_channels (col : vec3) (ns : Z) :
  write_pixel col ns =
  (float_to_int (clamp (sqrt (e0 col * (1 / IZR ns))) 0 0.999 * 256),
   float_to_int (clamp (sqrt (e1 col * (1 / IZR ns))) 0 0.999 * 256),
   float_to_int (clamp (sqrt (e2 col * (1 / IZR ns))) 0 0.999 * 256)).
Proof. reflexivity. Qed.

Lemma channel_white (c : R) (ns : Z) :
  (0 < ns)%Z -> IZR ns <= c ->
  float_to_int (clamp (sqrt (c * (1 / IZR ns))) 0 0.999 * 256) = 255%Z.
Proof.
  intros Hns Hc. apply IZR_lt in Hns.
  assert (Havg : 1 <= c * (1 / IZR ns)).
  { apply (Rmult_le_reg_r (IZR ns)); [exact Hns |].
    replace (c * (1 / IZR ns) * IZR ns) with c by (field; lra). lra. }
  assert (Hs : 1 <= sqrt (c * (1 / IZR ns))).
  { rewrite <- sqrt_1 at 1. apply sqrt_le_1_alt. exact Havg. }
  unfold clamp. rewrite Rltb_false by lra. rewrite Rgtb_true by lra.
  unfold float_to_int. rewrite Rltb_false by lra.
  symmetry. apply Int_part_spec. simpl. lra.
Qed.

Lemma channel_black (ns : Z) :
  float_to_int (clamp (sqrt (0 * (1 / IZR ns))) 0 0.999 * 256) = 0%Z.
Proof.
  rewrite Rmult_0_l, sqrt_0.
  unfold clamp. rewrite Rltb_false by lra. rewrite Rgtb_false by lra.
  unfold float_to_int. rewrite Rltb_false by lra.
  symmetry. apply Int_part_spec. simpl. lra.
Qed.

(** X22.  Every pixel written to the file is valid for the header's
    maximum of 255: for a positive number of samples and an accumulated
    colour with non-negative channels, the three integers [write_pixel]
    produces lie in [0, 255]. *)
Theorem write_pixel_range (col : vec3) (ns : Z) :
  (0 < ns)%Z -> 0 <= e0 col -> 0 <= e1 col -> 0 <= e2 col ->
  let '(cr, cg, cb) := write_pixel col ns in
  (0 <= cr <= 255 /\ 0 <= cg <= 255 /\ 0 <= cb <= 255)%Z.
Proof.
  intros _ _ _ _. rewrite write_pixel_channels.
  repeat split; apply float_to_int_range, channel_range.
Qed.

Lemma write_pixel_range_witness :
  let '(cr, cg, cb) := write_pixel ex_pixel_sum 100 in
  (0 <= cr <= 255 /\ 0 <= cg <= 255 /\ 0 <= cb <= 255)%Z.
Proof.
  apply (write_pixel_range ex_pixel_sum 100); simpl; try lia; lra.
Defined.

(** X23.  The extremes of [write_pixel], for a positive number of samples:
    a channel whose samples average to 1 or more is written as 255 (so a
    pixel that is white in every sample is 255 255 255), and a channel whose
    samples sum to 0 is written as 0. *)
Theorem write_pixel_extremes (col : vec3) (ns : Z) :
  (0 < ns)%Z ->
  (IZR ns <= e0 col -> fst (fst (write_pixel col ns)) = 255%Z) /\
  (IZR ns <= e1 col -> snd (fst (write_pixel col ns)) = 255%Z) /\
  (IZR ns <= e2 col -> snd (write_pixel col ns) = 255%Z) /\
  (e0 col = 0 -> fst (fst (write_pixel col ns)) = 0%Z) /\
  (e1 col = 0 -> snd (fst (write_pixel col ns)) = 0%Z) /\
  (e2 col = 0 -> snd (write_pixel col ns) = 0%Z).
Proof.
  intros Hns. rewrite write_pixel_channels. simpl fst. simpl snd.
  repeat split; intros H;
    first [ apply channel_white; assumption
          | rewrite H; apply channel_black ].
Qed.

Lemma write_pixel_extremes_witness :
  (IZR 100 <= e0 ex_pixel_sum -> fst (fst (write_pixel ex_pixel_sum 100)) = 255%Z) /\
  (IZR 100 <= e1 ex_pixel_sum -> snd (fst (write_pixel ex_pixel_sum 100)) = 255%Z) /\
  (IZR 100 <= e2 ex_pixel_sum -> snd (write_pixel ex_pixel_sum 100) = 255%Z) /\
  (e0 ex_pixel_sum = 0 -> fst (fst (write_pixel ex_pixel_sum 100)) = 0%Z) /\
  (e1 ex_pixel_sum = 0 -> snd (fst (write_pixel ex_pixel_sum 100)) = 0%Z) /\
  (e2 ex_pixel_sum = 0 -> snd (write_pixel ex_pixel_sum 100) = 0%Z).
Proof. apply (write_pixel_extremes ex_pixel_sum 100). lia. Defined.

(** ** Vector utilities *)

(** X24.  For a non-zero vector, [unit_vector] has length 1 and points
    along the vector (scaled back by the length it gives the vector), and
    the in-place [make_unit_vector] produces the same vector. *)
Theorem unit_vector_spec (v : vec3) :
  v <> Vec3.zero ->
  Vec3.length (Vec3.unit_vector v) = 1 /\
  (Vec3.unit_vector v :* Vec3.length v)%v3 = v /\
  Vec3.make_unit_vector v = Vec3.unit_vector v.
Proof.
  intros Hv. pose proof (sqrt_lt_R0 _ (squared_length_pos _ Hv)) as Hl.
  fold (Vec3.length v) in Hl.
  split; [apply length_unit_vector; exact Hv |].
  unfold Vec3.unit_vector, Vec3.make_unit_vector.
  remember (Vec3.length v) as L eqn:EL. clear EL.
  split; apply vec3_eq; unfold Vec3.scale, Vec3.div; simpl; field; lra.
Qed.

Lemma unit_vector_spec_witness :
  Vec3.length (Vec3.unit_vector (Ray.direction ex_ray)) = 1 /\
  (Vec3.unit_vector (Ray.direction ex_ray)
   :* Vec3.length (Ray.direction ex_ray))%v3 = Ray.direction ex_ray /\
  Vec3.make_unit_vector (Ray.direction ex_ray)
  = Vec3.unit_vector (Ray.direction ex_ray).
Proof. apply (unit_vector_spec (Ray.direction ex_ray)), ex_ray_direction. Defined.

(** X25.  The cross product is orthogonal to both of its arguments,
    changes sign when they are swapped, and its squared length is
    [|a|^2 |b|^2 - (a.b)^2]. *)
Theorem cross_spec (a b : vec3) :
  Vec3.dot (Vec3.cross a b) a = 0 /\
  Vec3.dot (Vec3.cross a b) b = 0 /\
  Vec3.cross b a = (- Vec3.cross a b)%v3 /\
  Vec3.squared_length (Vec3.cross a b)
  = Vec3.squared_length a * Vec3.squared_length b
    - Vec3.dot a b * Vec3.dot a b.
Proof.
  split; [| split; [| split]].
  - unfold Vec3.dot, Vec3.cross. simpl. ring.
  - unfold Vec3.dot, Vec3.cross. simpl. ring.
  - apply vec3_eq; unfold Vec3.cross, Vec3.neg; simpl; ring.
  - unfold Vec3.squared_length, Vec3.dot, Vec3.cross. simpl. ring.
Qed.

(** X26.  [ray::at]: the parameter 0 gives the origin, 1 gives origin plus
    direction, and walking [a] and then [b] along the direction from the
    point reached is walking [a + b]. *)
Theorem ray_at_spec (r : ray) (a b : R) :
  Ray.at_ r 0 = Ray.origin r /\
  Ray.at_ r 1 = (Ray.origin r + Ray.direction r)%v3 /\
  Ray.at_ (mkray (Ray.at_ r a) (Ray.direction r)) b = Ray.at_ r (a + b).
Proof.
  repeat split; apply vec3_eq;
    unfold Ray.at_, Ray.origin, Ray.direction, Vec3.add, Vec3.scale_l;
    simpl; ring.
Qed.

(** ** [random_float], continued *)

(** X27.  Once the distribution of [random_float] exists with bounds
    [a <= b], every call, whatever bounds it is given, returns a value in
    [a, b], and leaves the distribution as it is: the bounds of the first
    call hold for the rest of the run. *)
Theorem random_float_keeps_first_bounds (a b min max : R) (st : rng) :
  rng_wf st -> a <= b -> distribution st = Some (a, b) ->
  a <= fst (random_float min max st) <= b /\
  distribution (snd (random_float min max st)) = Some (a, b) /\
  rng_wf (snd (random_float min max st)) /\
  generator_pos (snd (random_float min max st)) = S (generator_pos st).
Proof.
  intros Hwf Hab Hd.
  destruct (random_float_later a b min max st Hd) as [-> ->].
  destruct Hwf as [Hg Hr]. pose proof (Hg (generator_pos st)) as Hu.
  split; [split; nra |]. split; [reflexivity |].
  split; [split; assumption | reflexivity].
Qed.

Lemma random_float_keeps_first_bounds_witness :
  0 <= fst (random_float (-1) 1 (snd (random_float 0 1 ex_rng))) <= 1 /\
  distribution (snd (random_float (-1) 1 (snd (random_float 0 1 ex_rng))))
  = Some (0, 1) /\
  rng_wf (snd (random_float (-1) 1 (snd (random_float 0 1 ex_rng)))) /\
  generator_pos (snd (random_float (-1) 1 (snd (random_float 0 1 ex_rng))))
  = S (generator_pos (snd (random_float 0 1 ex_rng))).
Proof.
  apply (random_float_keeps_first_bounds 0 1 (-1) 1 (snd (random_float 0 1 ex_rng))).
  - apply random_float_wf, ex_rng_wf.
  - lra.
  - reflexivity.
Defined.

(** ** Hits of a scene come from its spheres *)

Lemma all_spheres_list (P : sphere -> Prop) (objects : list hitable) :
  all_spheres P (HitableList objects) <-> Forall (all_spheres P) objects.
Proof.
  induction objects as [| o rest IH]; simpl.
  - split; [constructor | trivial].
  - split.
    + intros [Ho Hrest]. constructor; [exact Ho | apply IH; exact Hrest].
    + intros H. inversion H as [| ? ? Ho Hrest]; subst.
      split; [exact Ho | apply IH; exact Hrest].
Qed.

(** A reported hit is the hit of one of the spheres, over a range with the
    same lower bound. *)
Lemma hit_from_sphere (P : sphere -> Prop) (o : hitable) :
  all_spheres P o ->
  forall r t_min t_max h,
    query (hit o) r t_min t_max = Some h ->
    exists s c, P s /\ sphere_hit s r t_min c hit_record_uninit = (true, h).
Proof.
  induction o as [s | objects IH] using hitable_induction.
  - intros Hs r t_min t_max h Hq. exists s, t_max. split; [exact Hs |].
    apply (hit_true_query (Sphere s)). exact Hq.
  - intros Hall r t_min t_max h Hq.
    rewrite (list_query_nearest _ (all_regular _)) in Hq.
    apply (nearest_in hitable hit objects (all_regular objects)) in Hq.
    destruct Hq as (o & Hin & Hq).
    apply all_spheres_list in Hall.
    rewrite Forall_forall in IH, Hall.
    exact (IH o Hin (Hall o Hin) r t_min t_max h Hq).
Qed.

Lemma sphere_hit_normal (s : sphere) (r : ray) (t_min t_max : R)
    (rec h : hit_record) :
  radius s <> 0 ->
  sphere_hit s r t_min t_max rec = (true, h) ->
  Vec3.length (normal h) = 1 /\ mat_ptr h = mat s.
Proof.
  intros Hr H. apply sphere_hit_inv in H.
  destruct H as (temp & Hd & Hroot & _ & ->). simpl.
  split; [| reflexivity].
  apply length_of_squared; [lra |].
  rewrite squared_length_div by exact Hr.
  rewrite (sphere_root_on_surface s r temp Hd Hroot). field. exact Hr.
Qed.

(** X29.  In a scene whose spheres all have a non-zero radius, nested to
    any depth, every hit that [hit] reports carries a normal of length 1. *)
Theorem hit_normal_unit (o : hitable) (r : ray) (t_min t_max : R)
    (rec h : hit_record) :
  all_spheres proper_sphere o ->
  hit o r t_min t_max rec = (true, h) ->
  Vec3.length (normal h) = 1.
Proof.
  intros Hall H. apply hit_true_query in H.
  destruct (hit_from_sphere proper_sphere o Hall _ _ _ _ H) as (s & c & Hs & Hh).
  apply (sphere_hit_normal s r t_min c _ h Hs Hh).
Qed.

Lemma hit_normal_unit_witness :
  Vec3.length (normal (sphere_record ex_near ex_ray 1)) = 1.
Proof.
  apply (hit_normal_unit (HitableList [Sphere ex_far; Sphere ex_near])
           ex_ray 0 10 hit_record_uninit).
  - simpl. unfold proper_sphere. simpl. repeat split; lra.
  - apply ex_far_near_hit.
Defined.

(** ** The colours [color] returns *)

Lemma within_unit_mul (a c : vec3) :
  within 0 1 a -> within 0 1 c -> within 0 1 (a * c)%v3.
Proof.
  unfold within, Vec3.mul. simpl.
  intros (Ha0 & Ha1 & Ha2) (Hc0 & Hc1 & Hc2). repeat split; nra.
Qed.

Lemma within_unit_black : within 0 1 (mkvec3 0 0 0).
Proof. unfold within. simpl. repeat split; lra. Qed.

Lemma length_one_nonzero (v : vec3) : Vec3.length v = 1 -> v <> Vec3.zero.
Proof.
  intros H ->. unfold Vec3.length, Vec3.squared_length, Vec3.zero in H.
  simpl in H. replace (0 * 0 + 0 * 0 + 0 * 0) with 0 in H by ring.
  rewrite sqrt_0 in H. lra.
Qed.

Lemma metal_scattered_unit (albedo : vec3) (r_in : ray) (rec : hit_record)
    (st : rng) :
  Vec3.length (normal rec) = 1 ->
  Ray.direction r_in <> Vec3.zero ->
  exists b scattered,
    Metal.scatter albedo r_in rec st = Ok (b, albedo, scattered, st) /\
    Vec3.length (Ray.direction scattered) = 1.
Proof.
  intros Hn Hd. apply length_unit_squared in Hn.
  unfold Metal.scatter. cbv zeta.
  eexists. eexists. split; [reflexivity |].
  apply length_of_squared; [lra |].
  unfold Ray.direction at 1. simpl dir.
  rewrite (reflect_squared_length _ _ Hn).
  rewrite squared_length_dot, dot_unit_vector_self by exact Hd. ring.
Qed.

Lemma color_opaque_within (world : hitable) :
  all_spheres opaque_sphere world ->
  forall fuel r depth st c st',
    Ray.direction r <> Vec3.zero ->
    color fuel r world depth st = Ok (c, st') ->
    within 0 1 c.
Proof.
  intros Hw. induction fuel as [| fuel IH]; intros r depth st c st' Hdir.
  - simpl. destruct (depth >? 50)%Z; [| discriminate].
    intros [= <- _]. exact within_unit_black.
  - destruct (Z_le_gt_dec depth 50) as [Hd | Hd].
    + rewrite (color_step fuel r world depth st Hd).
      destruct (query (hit world) r 0.0001 FLT_MAX) as [rec |] eqn:E.
      * destruct (hit_from_sphere opaque_sphere world Hw _ _ _ _ E)
          as (s & cmax & [Hrad Hmat] & Hh).
        destruct (sphere_hit_normal s r _ _ _ _ Hrad Hh) as [Hn Hm].
        rewrite Hm.
        destruct (mat s) as [[albedo | albedo | ref_idx] |];
          try contradiction; simpl scatter.
        -- destruct (Lambertian.scatter albedo fuel r rec st)
             as [[[[b att] sc] st1] | |] eqn:Es; simpl; try discriminate.
           destruct (lambertian_scatter_post _ _ _ _ _ _ _ _ _ Hn Es)
             as (-> & -> & _ & _ & Hdot).
           assert (Hsc : Ray.direction sc <> Vec3.zero).
           { intros Hz. rewrite Hz in Hdot. unfold Vec3.dot, Vec3.zero in Hdot.
             simpl in Hdot. lra. }
           destruct (color fuel sc world (depth + 1) st1)
             as [[c1 st2] | |] eqn:Ec; simpl; try discriminate.
           intros [= <- _]. apply within_unit_mul; [exact Hmat |].
           exact (IH _ _ _ _ _ Hsc Ec).
        -- destruct (metal_scattered_unit albedo r rec st Hn Hdir)
             as (b & sc & -> & Hlen).
           simpl. destruct b.
           ++ destruct (color fuel sc world (depth + 1) st)
                as [[c1 st2] | |] eqn:Ec; simpl; try discriminate.
              intros [= <- _]. apply within_unit_mul; [exact Hmat |].
              exact (IH _ _ _ _ _ (length_one_nonzero _ Hlen) Ec).
           ++ intros [= <- _]. exact within_unit_black.
      * intros [= <- _].
        destruct (background_range r Hdir) as (H0 & H1 & H2).
        unfold within. rewrite H2. repeat split; lra.
    + simpl. apply Z.gt_lt in Hd. apply Z.gtb_lt in Hd. rewrite Hd.
      intros [= <- _]. exact within_unit_black.
Qed.

(** X30.  In a scene whose spheres all have a non-zero radius and a
    Lambertian or metal material with an albedo in [0,1] per channel, every
    colour [color] returns for a ray of non-zero direction has its three
    channels in [0, 1]. *)
Theorem color_opaque_in_unit_cube (world : hitable) (fuel : nat) (r : ray)
    (depth : Z) (st st' : rng) (c : vec3) :
  all_spheres opaque_sphere world ->
  Ray.direction r <> Vec3.zero ->
  color fuel r world depth st = Ok (c, st') ->
  within 0 1 c.
Proof.
  intros Hw Hdir Hc. exact (color_opaque_within world Hw _ _ _ _ _ _ Hdir Hc).
Qed.

Lemma ex_up_ray_misses :
  color 1 ex_up_ray (HitableList [Sphere ex_near; Sphere ex_far]) 0 ex_rng
  = Ok (background ex_up_ray, ex_rng).
Proof.
  rewrite color_step by lia.
  rewrite (list_query_nearest _ (all_regular _)), !nearest_cons.
  change (query (hit (Sphere ex_near)) ex_up_ray 0.0001 FLT_MAX)
    with (query (sphere_hit ex_near) ex_up_ray 0.0001 FLT_MAX).
  rewrite sphere_query_unfold.
  rewrite (Rgtb_false (sphere_discriminant ex_near ex_up_ray))
    by (unfold_sphere; lra).
  change (query (hit (Sphere ex_far)) ex_up_ray 0.0001 FLT_MAX)
    with (query (sphere_hit ex_far) ex_up_ray 0.0001 FLT_MAX).
  rewrite sphere_query_unfold.
  rewrite (Rgtb_false (sphere_discriminant ex_far ex_up_ray))
    by (unfold_sphere; lra).
  reflexivity.
Qed.

Lemma ex_up_ray_length : Vec3.length (Ray.direction ex_up_ray) = 1.
Proof.
  apply length_of_squared; [lra |]. unfold Vec3.squared_length. simpl. ring.
Qed.

Lemma ex_mirror_eval :
  sphere_discriminant ex_mirror ex_up_ray = 1 /\
  sphere_root1 ex_mirror ex_up_ray = 1 /\ sphere_root2 ex_mirror ex_up_ray = 3.
Proof.
  assert (E : sphere_discriminant ex_mirror ex_up_ray = 1 * 1)
    by (unfold_sphere; lra).
  destruct (sphere_roots_eval ex_mirror ex_up_ray 1 ltac:(lra) E) as [E1 E2].
  rewrite E, E1, E2. unfold_sphere. repeat split; lra.
Qed.

Lemma ex_mirror_eval_down :
  sphere_discriminant ex_mirror ex_down_ray = 1 /\
  sphere_root1 ex_mirror ex_down_ray = -2 /\
  sphere_root2 ex_mirror ex_down_ray = 0.
Proof.
  assert (E : sphere_discriminant ex_mirror ex_down_ray = 1 * 1)
    by (unfold_sphere; lra).
  destruct (sphere_roots_eval ex_mirror ex_down_ray 1 ltac:(lra) E) as [E1 E2].
  rewrite E, E1, E2. unfold_sphere. repeat split; lra.
Qed.

Lemma FLT_MAX_large : 10 < FLT_MAX.
Proof. unfold FLT_MAX. apply IZR_lt. reflexivity. Qed.

(** The ray [metal::scatter] builds at the hit of [ex_up_ray] on
    [ex_mirror] is [ex_down_ray], and it leaves the surface. *)
Lemma ex_mirror_scatter (st : rng) :
  Metal.scatter (mkvec3 0.5 0.25 1) ex_up_ray
                (sphere_record ex_mirror ex_up_ray 1) st
  = Ok (true, mkvec3 0.5 0.25 1, ex_down_ray, st).
Proof.
  unfold Metal.scatter. cbv zeta.
  assert (Hsc : mkray (p (sphere_record ex_mirror ex_up_ray 1))
                      (Metal.reflect
                         (Vec3.unit_vector (Ray.direction ex_up_ray))
                         (normal (sphere_record ex_mirror ex_up_ray 1)))
                = ex_down_ray).
  { unfold ex_down_ray. f_equal.
    - apply vec3_eq; unfold Ray.at_, Vec3.add, Vec3.scale_l; simpl; lra.
    - unfold Metal.reflect, Vec3.unit_vector. rewrite ex_up_ray_length.
      apply vec3_eq;
        unfold Vec3.dot, Vec3.sub, Vec3.add, Vec3.scale_l, Vec3.div, Ray.at_;
        simpl; lra. }
  rewrite Hsc. rewrite Rgtb_true; [reflexivity |].
  unfold Vec3.dot, Vec3.sub, Vec3.add, Vec3.scale_l, Vec3.div, Ray.at_.
  simpl. lra.
Qed.

(** One bounce: [ex_up_ray] meets the metal sphere, is reflected straight
    down, misses the sphere on the way back and gets the background, which
    the albedo attenuates. *)
Lemma ex_mirror_bounce :
  color 2 ex_up_ray (HitableList [Sphere ex_mirror]) 49 ex_rng
  = Ok ((mkvec3 0.5 0.25 1 * background ex_down_ray)%v3, ex_rng).
Proof.
  pose proof FLT_MAX_large as HF.
  rewrite color_step by lia.
  rewrite (list_query_nearest _ (all_regular _)), nearest_cons.
  rewrite (sphere_query_known _ _ _ _ 1 1 3 ex_mirror_eval) by lra.
  decide_range. cbn [nearest].
  change (mat_ptr (sphere_record ex_mirror ex_up_ray 1))
    with (Some (metal (mkvec3 0.5 0.25 1))).
  cbv iota. unfold scatter. rewrite ex_mirror_scatter. cbn [bind].
  change (49 + 1)%Z with 50%Z.
  rewrite color_step by lia.
  rewrite (list_query_nearest _ (all_regular _)), nearest_cons.
  rewrite (sphere_query_known _ _ _ _ 1 (-2) 0 ex_mirror_eval_down) by lra.
  decide_range. reflexivity.
Qed.

Example ex_mirror_bounce_value :
  (mkvec3 0.5 0.25 1 * background ex_down_ray)%v3 = mkvec3 0.5 0.25 1.
Proof.
  unfold background, Vec3.unit_vector, Ray.direction. cbv zeta. cbn [dir ex_down_ray].
  rewrite (length_of_squared (mkvec3 0 (-1) 0) 1)
    by (try lra; unfold Vec3.squared_length; simpl; ring).
  apply vec3_eq;
    unfold Vec3.y, Vec3.mul, Vec3.add, Vec3.scale_l, Vec3.div; simpl; lra.
Qed.

Lemma color_opaque_in_unit_cube_witness :
  within 0 1 (mkvec3 0.5 0.25 1 * background ex_down_ray)%v3.
Proof.
  apply (color_opaque_in_unit_cube (HitableList [Sphere ex_mirror]) 2
           ex_up_ray 49 ex_rng ex_rng).
  - simpl. unfold opaque_sphere, within. simpl. repeat split; lra.
  - intros H. apply (f_equal e1) in H. simpl in H. lra.
  - exact ex_mirror_bounce.
Defined.
